(** * ConcatenateIterator: the concatenation combinator of cpp-lazy

    A shallow embedding of [include/Lz/detail/ConcatenateIterator.hpp].

    A member cursor is a random-access iterator; it is modelled by its
    position, an integer ([Z]), as for a pointer into an array: [++] adds
    one, [+= k] adds [k], the difference of two cursors is the difference
    of their positions.  The [std::tuple] of member cursors is a list of
    positions, [std::get<I>(t)] is the total lookup [t !!! I] and the
    assignment to [std::get<I>(t)] is the list update [<[I:=v]> t].

    The helper structs [PlusPlus<Tuple, I>], [NotEqual<Tuple, I>], ... are
    templates that recurse on the index [I].  The ones that count [I]
    upwards take the number of template instances still to come as their
    first argument (it is what the recursion is structural on); the ones
    that count downwards recurse on [I] itself. *)

From Stdlib Require Import Ascii.
From Stdlib Require String.
From stdpp Require Import base numbers list strings.

Local Open Scope Z_scope.

(** ** Data model *)

Abbreviation Tuple := (list Z).

(** [ConcatenateIterator<Iterators...>]: the three tuples it stores. *)
Record ConcatenateIterator := mkConcatenateIterator {
  _iterators : Tuple;
  _begin : Tuple;
  _end : Tuple
}.

(** [sizeof...(Iterators)] *)
Definition size (c : ConcatenateIterator) : nat := length (_iterators c).

(** The sum that [std::accumulate] computes, written as a right fold. *)
Definition Zsum (l : list Z) : Z := foldr Z.add 0 l.

(** ** The recursive helpers *)

(** [PlusPlus<Tuple, I>]; [rest] is [tuple_size - I]. *)
Fixpoint PlusPlus (rest I : nat) (iterators end_ : Tuple) : Tuple :=
  match rest with
  | O => iterators
  | S rest' =>
      if bool_decide (iterators !!! I ≠ end_ !!! I)
      then <[I := iterators !!! I + 1]> iterators
      else PlusPlus rest' (S I) iterators end_
  end.

(** [NotEqual<Tuple, I>]; [rest] is [tuple_size - 1 - I]. *)
Fixpoint NotEqual (rest I : nat) (iterators end_ : Tuple) : bool :=
  match rest with
  | O => bool_decide (iterators !!! I ≠ end_ !!! I)
  | S rest' =>
      let iterHasValue := bool_decide (iterators !!! I ≠ end_ !!! I) in
      if iterHasValue then iterHasValue
      else NotEqual rest' (S I) iterators end_
  end.

(** [MinusMinus<Tuple, I>] *)
Fixpoint MinusMinus (I : nat) (iterators begin end_ : Tuple) : Tuple :=
  match I with
  | O => <[0%nat := iterators !!! 0%nat - 1]> iterators
  | S I' =>
      let current := iterators !!! I in
      if bool_decide (current ≠ begin !!! I)
      then <[I := current - 1]> iterators
      else MinusMinus I' iterators begin end_
  end.

(** [MinIs<Tuple, I>] *)
Fixpoint MinIs (I : nat) (iterators begin end_ : Tuple) (offset : Z) : Tuple :=
  match I with
  | O => <[0%nat := iterators !!! 0%nat - offset]> iterators
  | S I' =>
      let currentBegin := begin !!! I in
      let current := iterators !!! I in
      if bool_decide (current = currentBegin)
      then MinIs I' iterators begin end_ offset
      else
        let dist := end_ !!! I - current in
        if bool_decide (dist ≤ offset)
        then MinIs I' (<[I := begin !!! I]> iterators) begin end_
                   (if bool_decide (dist = 0) then 1 else offset - dist)
        else <[I := iterators !!! I - offset]> iterators
  end.

(** [PlusIs<Tuple, I>]; [rest] is [tuple_size - 1 - I]. *)
Fixpoint PlusIs (rest I : nat) (iterators end_ : Tuple) (offset : Z) : Tuple :=
  match rest with
  | O => iterators
  | S rest' =>
      let currentIterator := iterators !!! I in
      let currentEnd := end_ !!! I in
      let dist := currentEnd - currentIterator in
      if bool_decide (dist > offset)
      then <[I := currentIterator + offset]> iterators
      else PlusIs rest' (S I) (<[I := currentIterator + dist]> iterators)
                  end_ (offset - dist)
  end.

(** ** Dereference

    The member sequences are the lists [seqs]; the cursor of member [I] at
    position [p] designates [seqs !!! I] at index [p].  Reading outside the
    sequence (in particular at its end) has no value. *)

Section Dereference.
Context {V : Type}.
Variable seqs : list (list V).

(** [*std::get<I>(iterators)] *)
Definition star (I : nat) (p : Z) : option V :=
  if bool_decide (0 ≤ p) then (seqs !!! I) !! Z.to_nat p else None.

(** [Deref<Tuple, I>]; [rest] is [tuple_size - 1 - I]. *)
Fixpoint Deref (rest I : nat) (iterators end_ : Tuple) : option V :=
  match rest with
  | O => star I (iterators !!! I)
  | S rest' =>
      if bool_decide (iterators !!! I ≠ end_ !!! I)
      then star I (iterators !!! I)
      else Deref rest' (S I) iterators end_
  end.

(** [operator*] *)
Definition operator_star (c : ConcatenateIterator) : option V :=
  Deref (size c - 1) 0 (_iterators c) (_end c).
End Dereference.

(** ** The operators of [ConcatenateIterator] *)

(** [operator++()] *)
Definition operator_inc (c : ConcatenateIterator) : ConcatenateIterator :=
  mkConcatenateIterator
    (PlusPlus (size c) 0 (_iterators c) (_end c)) (_begin c) (_end c).

(** [operator++(int)]: the value returned and the cursor afterwards. *)
Definition operator_post_inc (c : ConcatenateIterator)
  : ConcatenateIterator * ConcatenateIterator :=
  let tmp := c in (tmp, operator_inc c).

(** [operator--()] *)
Definition operator_dec (c : ConcatenateIterator) : ConcatenateIterator :=
  mkConcatenateIterator
    (MinusMinus (size c - 1) (_iterators c) (_begin c) (_end c))
    (_begin c) (_end c).

(** [operator--(int)]: the value returned and the cursor afterwards.  The
    source copies the cursor into [tmp], applies [++] to the cursor and
    returns [tmp]. *)
Definition operator_post_dec (c : ConcatenateIterator)
  : ConcatenateIterator * ConcatenateIterator :=
  let tmp := c in (tmp, operator_inc c).

(** [operator+=(offset)] *)
Definition operator_plus_assign (c : ConcatenateIterator) (offset : Z)
  : ConcatenateIterator :=
  mkConcatenateIterator
    (PlusIs (size c - 1) 0 (_iterators c) (_end c) offset) (_begin c) (_end c).

(** [operator-=(offset)] *)
Definition operator_minus_assign (c : ConcatenateIterator) (offset : Z)
  : ConcatenateIterator :=
  mkConcatenateIterator
    (MinIs (size c - 1) (_iterators c) (_begin c) (_end c) offset)
    (_begin c) (_end c).

(** [minus(IndexSequence<I...>, other)]: the array [totals] and its
    [std::accumulate] from [0]. *)
Definition minus (Is : list nat) (c other : ConcatenateIterator) : Z :=
  let totals := map (λ I, _iterators c !!! I - _iterators other !!! I) Is in
  fold_left Z.add totals 0.

(** [operator-(other)], with [MakeIndexSequence<sizeof...(Iterators)>]. *)
Definition operator_minus (c other : ConcatenateIterator) : Z :=
  minus (seq 0 (size c)) c other.

(** [operator!=] *)
Definition operator_ne (a b : ConcatenateIterator) : bool :=
  NotEqual (size a - 1) 0 (_iterators a) (_iterators b).

(** [operator==] *)
Definition operator_eq (a b : ConcatenateIterator) : bool :=
  negb (operator_ne a b).

(** [operator<] *)
Definition operator_lt (a b : ConcatenateIterator) : bool :=
  bool_decide (operator_minus b a > 0).

(** ** The two cursors of a view *)

(** Modelled from the spec: the view that owns the cursors (Concatenate.hpp)
    is not among the sources; its start accessor returns the composite
    cursor at the begin snapshot and its end accessor the one at the end
    snapshot. *)
Definition begin_state (begin end_ : Tuple) : ConcatenateIterator :=
  mkConcatenateIterator begin begin end_.

Definition end_state (begin end_ : Tuple) : ConcatenateIterator :=
  mkConcatenateIterator end_ begin end_.

(** The end-state of the view a cursor belongs to. *)
Definition end_of (c : ConcatenateIterator) : ConcatenateIterator :=
  end_state (_begin c) (_end c).

(** The begin and end tuples of the concatenation of whole sequences. *)
Definition begins {V} (seqs : list (list V)) : Tuple := map (λ _, 0) seqs.
Definition ends {V} (seqs : list (list V)) : Tuple :=
  map (λ s, Z.of_nat (length s)) seqs.

(** A cursor is in range when its three tuples have the same arity and
    every member lies between its begin and its end. *)
Definition in_range (c : ConcatenateIterator) : Prop :=
  Forall2 Z.le (_begin c) (_iterators c) ∧ Forall2 Z.le (_iterators c) (_end c).

(** The distance from a cursor to the end-state of its view. *)
Definition remaining (c : ConcatenateIterator) : Z :=
  operator_minus (end_of c) c.

(** Cursors reachable from the begin-state by valid forward steps. *)
Inductive reachable (begin end_ : Tuple) : ConcatenateIterator → Prop :=
  | reachable_begin : reachable begin end_ (begin_state begin end_)
  | reachable_inc c :
      reachable begin end_ c →
      operator_ne c (end_state begin end_) = true →
      reachable begin end_ (operator_inc c).

(** The loop that walks from [it] to [last], reading the value at [it]
    before each [++it]. *)
Fixpoint traverse {V} (seqs : list (list V)) (fuel : nat)
    (it last : ConcatenateIterator) : option (list V) :=
  match fuel with
  | O => None
  | S fuel' =>
      if operator_ne it last
      then v ← operator_star seqs it;
           vs ← traverse seqs fuel' (operator_inc it) last;
           Some (v :: vs)
      else Some []
  end.


(** The end tuple of members that start at [begin] and have the lengths
    [Ls]. *)
Definition ends_at (begin : Tuple) (Ls : list nat) : Tuple :=
  zip_with (λ b L, b + Z.of_nat L) begin Ls.

(** The first member index, scanning from index 0 upward, whose cursor is
    not at its end: the member the spec says a dereference reads. *)
Definition first_non_end (c : ConcatenateIterator) : option nat :=
  fst <$> list_find (λ i, _iterators c !!! i ≠ _end c !!! i) (seq 0 (size c)).

(** Members [0 .. k-1] of a cursor are exhausted: each is at its end. *)
Definition exhausted_before (k : nat) (c : ConcatenateIterator) : Prop :=
  ∀ j, (j < k)%nat → _iterators c !!! j = _end c !!! j.

(** ** The jumps, one template instance at a time

    [PlusIs] and [MinIs] end in a call to the instance at the next index.
    Their bodies are written here as one instance each, which either returns
    the tuple or names the instance to enter next, and [run] enters
    instances until one returns or the fuel is used up. *)

Inductive call :=
  | Return (iterators : Tuple)
  | Recurse (I : nat) (iterators : Tuple) (offset : Z).

(** The body of [PlusIs<Tuple, I>] for a tuple of [N] members. *)
Definition PlusIs_body (N : nat) (end_ : Tuple)
    (I : nat) (iterators : Tuple) (offset : Z) : call :=
  if bool_decide (I = (N - 1)%nat) then Return iterators
  else
    let currentIterator := iterators !!! I in
    let currentEnd := end_ !!! I in
    let dist := currentEnd - currentIterator in
    if bool_decide (dist > offset)
    then Return (<[I := currentIterator + offset]> iterators)
    else Recurse (S I) (<[I := currentIterator + dist]> iterators) (offset - dist).

(** The body of [MinIs<Tuple, I>]. *)
Definition MinIs_body (begin end_ : Tuple)
    (I : nat) (iterators : Tuple) (offset : Z) : call :=
  if bool_decide (I = 0%nat)
  then Return (<[0%nat := iterators !!! 0%nat - offset]> iterators)
  else
    let currentBegin := begin !!! I in
    let current := iterators !!! I in
    if bool_decide (current = currentBegin)
    then Recurse (I - 1) iterators offset
    else
      let dist := end_ !!! I - current in
      if bool_decide (dist ≤ offset)
      then Recurse (I - 1) (<[I := begin !!! I]> iterators)
                   (if bool_decide (dist = 0) then 1 else offset - dist)
      else Return (<[I := iterators !!! I - offset]> iterators).

Fixpoint run (body : nat → Tuple → Z → call) (fuel : nat)
    (I : nat) (iterators : Tuple) (offset : Z) : option Tuple :=
  match fuel with
  | O => None
  | S fuel' =>
      match body I iterators offset with
      | Return t => Some t
      | Recurse I' t offset' => run body fuel' I' t offset'
      end
  end.

(** The sum of the distances to the end of the members [I .. I+rest-1]. *)
Fixpoint dist_from (rest I : nat) (iterators end_ : Tuple) : Z :=
  match rest with
  | O => 0
  | S rest' => (end_ !!! I - iterators !!! I) + dist_from rest' (S I) iterators end_
  end.

(** ** The remaining operators of [ConcatenateIterator] *)

(** [operator+(offset)]: a copy of the cursor, jumped forward. *)
Definition operator_plus (c : ConcatenateIterator) (offset : Z)
  : ConcatenateIterator :=
  let tmp := c in operator_plus_assign tmp offset.

(** [operator-(offset)]: a copy of the cursor, jumped backward. *)
Definition operator_minus_offset (c : ConcatenateIterator) (offset : Z)
  : ConcatenateIterator :=
  let tmp := c in operator_minus_assign tmp offset.

(** [operator[]] *)
Definition operator_index {V} (seqs : list (list V))
    (c : ConcatenateIterator) (offset : Z) : option V :=
  operator_star seqs (operator_plus c offset).

(** [operator>] *)
Definition operator_gt (a b : ConcatenateIterator) : bool := operator_lt b a.

(** [operator<=] *)
Definition operator_le (a b : ConcatenateIterator) : bool :=
  negb (operator_lt b a).

(** [operator>=] *)
Definition operator_ge (a b : ConcatenateIterator) : bool :=
  negb (operator_lt a b).

(** The shape of the cursors a walk produces: of two members, the left one
    is at its end or the right one is at its begin. *)
Definition shaped (c : ConcatenateIterator) : Prop :=
  ∀ i j, (i < j < size c)%nat →
         _iterators c !!! i = _end c !!! i ∨ _iterators c !!! j = _begin c !!! j.

(** The elements still ahead of the member cursors [I .. I+rest-1]. *)
Fixpoint elems_from {V} (seqs : list (list V)) (rest I : nat)
    (iterators : Tuple) : list V :=
  match rest with
  | O => []
  | S rest' =>
      drop (Z.to_nat (iterators !!! I)) (seqs !!! I)
      ++ elems_from seqs rest' (S I) iterators
  end.

(** A cursor into the concatenation of the whole sequences [seqs]. *)
Definition cursor_of {V} (seqs : list (list V)) (c : ConcatenateIterator) : Prop :=
  in_range c ∧ _begin c = begins seqs ∧ _end c = ends seqs.

(** * SplitIterator: splitting a string on a delimiter

    The second class of the same header.  A string is the list of its
    characters; [std::size_t] is an integer below [2 ^ 64] and its
    arithmetic wraps around. *)

Module SplitIterator.

Abbreviation Str := (list ascii).

(** [std::string::npos], the largest [std::size_t]. *)
Definition npos : Z := 2 ^ 64 - 1.

(** The result of [std::size_t] arithmetic. *)
Definition wrap (x : Z) : Z := x mod 2 ^ 64.

(** The scan of [std::string::find]: the first index, counted from [i] at
    the head of [s], at which [d] starts. *)
Fixpoint find_in (d s : Str) (i : nat) : option nat :=
  if decide (take (length d) s = d) then Some i
  else match s with
       | [] => None
       | _ :: s' => find_in d s' (S i)
       end.

(** [string.find(delimiter, pos)], as the C++ standard library defines it:
    the first position at or after [pos] where the delimiter occurs, [npos]
    when there is none or [pos] is past the end. *)
Definition find (s d : Str) (pos : Z) : Z :=
  if bool_decide (pos ≤ Z.of_nat (length s))
  then match find_in d (drop (Z.to_nat pos) s) (Z.to_nat pos) with
       | Some i => Z.of_nat i
       | None => npos
       end
  else npos.

(** [SubString(&string[pos], count)]: [count] characters from [pos].  A
    count that reaches past the end of the string is outside what the code
    may be given (it builds an invalid view or throws); the list operation
    stops at the end of the string there.  A cursor on a walk never asks
    for it. *)
Definition substr_count (s : Str) (pos count : Z) : Str :=
  take (Z.to_nat count) (drop (Z.to_nat pos) s).

(** The characters of a C string, up to the first NUL. *)
Fixpoint until_nul (s : Str) : Str :=
  match s with
  | [] => []
  | c :: s' => if decide (c = zero) then [] else c :: until_nul s'
  end.

(** [SubString(&string[pos])]: the C string that starts at [pos]. *)
Definition substr_cstr (s : Str) (pos : Z) : Str :=
  until_nul (drop (Z.to_nat pos) s).

Record SplitIterator := mkSplitIterator {
  _currentPos : Z;
  _last : Z;
  _string : Str;
  _delimiter : Str
}.

(** The constructor: [_last] is searched only when the cursor starts at
    position 0, and is 0 otherwise. *)
Definition construct (startingPosition : Z) (string delimiter : Str)
  : SplitIterator :=
  mkSplitIterator startingPosition
    (if bool_decide (startingPosition = 0)
     then find string delimiter startingPosition else 0)
    string delimiter.

(** [operator*] *)
Definition operator_star (it : SplitIterator) : Str :=
  if bool_decide (_last it ≠ npos)
  then substr_count (_string it) (_currentPos it)
         (wrap (_last it - _currentPos it))
  else substr_cstr (_string it) (_currentPos it).

(** [operator!=] *)
Definition operator_ne (a b : SplitIterator) : bool :=
  bool_decide (_currentPos a ≠ _currentPos b).

(** [operator==] *)
Definition operator_eq (a b : SplitIterator) : bool := negb (operator_ne a b).

(** [operator++()] *)
Definition operator_inc (it : SplitIterator) : SplitIterator :=
  let delimLen := Z.of_nat (length (_delimiter it)) in
  let stringLen := Z.of_nat (length (_string it)) in
  if bool_decide (_last it = npos)
  then mkSplitIterator stringLen (_last it) (_string it) (_delimiter it)
  else if bool_decide (_last it = wrap (stringLen - delimLen))
  then mkSplitIterator stringLen npos (_string it) (_delimiter it)
  else
    let currentPos := wrap (_last it + delimLen) in
    mkSplitIterator currentPos
      (find (_string it) (_delimiter it) currentPos)
      (_string it) (_delimiter it).

(** [operator++(int)]: the value returned and the cursor afterwards. *)
Definition operator_post_inc (it : SplitIterator)
  : SplitIterator * SplitIterator :=
  let tmp := it in (tmp, operator_inc it).

(** The loop that walks from [it] to [last], reading the token at [it]
    before each [++it]. *)
Fixpoint tokens (fuel : nat) (it last : SplitIterator) : option (list Str) :=
  match fuel with
  | O => None
  | S fuel' =>
      if operator_ne it last
      then ts ← tokens fuel' (operator_inc it) last;
           Some (operator_star it :: ts)
      else Some []
  end.

(** The tokens put together again, the delimiter between them. *)
Fixpoint join (d : Str) (ts : list Str) : Str :=
  match ts with
  | [] => []
  | t :: ts' =>
      match ts' with
      | [] => t
      | _ :: _ => t ++ d ++ join d ts'
      end
  end.

(** A string literal as a list of characters. *)
Definition str (s : string) : Str := String.list_ascii_of_string s.

(** The delimiter does not occur inside a token. *)
Definition delimiter_free (d t : Str) : Prop :=
  ∀ k, take (length d) (drop k t) ≠ d.

(** What a walk keeps true of its cursor: it is inside the string, and
    before the end [_last] is the next occurrence of the delimiter. *)
Definition on_walk (s d : Str) (it : SplitIterator) : Prop :=
  _string it = s ∧ _delimiter it = d ∧
  0 ≤ _currentPos it ≤ Z.of_nat (length s) ∧
  (_currentPos it < Z.of_nat (length s) → _last it = find s d (_currentPos it)).

End SplitIterator.

(** * SeedSequence (Random.hpp)

    [SeedSequence<N>] holds [N] words of type [result_type], an unsigned
    32-bit integer.  [generate] is a template over the iterator of the range
    it fills; the words of the range are of the unsigned type
    [IterValueType], here an integer below [2 ^ W] for a width [W] between
    32 and 64 ([uint32_t], the range [std::mt19937] passes when it is seeded
    in [createMtEngine], or [uint64_t]).  [std::size_t] values are integers
    below [2 ^ 64].  Every operation is done in the type the source does it
    in, its wrap-around and each conversion written out.  Array accesses are
    checked: an access outside the array has no result. *)

Module SeedSequence.

(** Arithmetic on [result_type] and on [std::size_t]. *)
Definition w32 (x : Z) : Z := x mod 2 ^ 32.
Definition w64 (x : Z) : Z := x mod 2 ^ 64.

(** [T(x)] *)
Definition T (x : Z) : Z := Z.lxor x (Z.shiftr x 27).

(** Arithmetic on [IterValueType], of width [W]. *)
Definition wv (W : Z) (x : Z) : Z := x mod 2 ^ W.

(** [mask]: [static_cast<IterValueType>(1) << 31], then [<<= 1], then
    [-= 1], all in [IterValueType]. *)
Definition mask (W : Z) : Z :=
  wv W (wv W (Z.shiftl (wv W (Z.shiftl 1 31)) 1) - 1).

(** [a[i]] as a read and as a write. *)
Definition get (a : list Z) (i : Z) : option Z := a !! Z.to_nat i.

Definition set (a : list Z) (i v : Z) : option (list Z) :=
  if bool_decide (Z.to_nat i < length a)%nat
  then Some (<[Z.to_nat i := v]> a) else None.

(** A [for] loop over the values [ks] of its counter. *)
Fixpoint for_each (ks : list Z) (body : Z → list Z → option (list Z))
    (a : list Z) : option (list Z) :=
  match ks with
  | [] => Some a
  | k :: ks' => a' ← body k a; for_each ks' body a'
  end.

(** [create(begin, end)]: [std::transform] of the values into [_seed],
    which starts as [N] zeros. *)
Definition create (N : nat) (values : list Z) : option (list Z) :=
  if bool_decide (length values ≤ N)%nat
  then Some (map w32 values ++ replicate (N - length values) 0)
  else None.

(** [param(outputIterator)]: the words copied out. *)
Definition param (_seed : list Z) : list Z := _seed.

(** [size()] *)
Definition size (_seed : list Z) : nat := length _seed.

(** The body of the first loop of [generate].  The argument of [T] is
    converted to [result_type]; [r1] and [r2] are [result_type]; the sums
    with [s] and [kModN] are [std::size_t]; the two [+=] are done in
    [IterValueType]. *)
Definition first_round (W : Z) (_seed : list Z) (n p q : Z) (k : Z)
    (a : list Z) : option (list Z) :=
  let s := Z.of_nat (length _seed) in
  let kModN := k mod n in
  let kPlusPModN := w64 (k + p) mod n in
  x ← get a kModN;
  y ← get a kPlusPModN;
  z ← get a (w64 (k - 1) mod n);
  let r1 := w32 (1664525 * T (w32 (Z.lxor (Z.lxor x y) z))) in
  r2 ← (if bool_decide (k = 0) then Some (w32 (Z.land (w64 (r1 + s)) (mask W)))
        else if bool_decide (k ≤ s)
        then sd ← get _seed (w64 (k - 1));
             Some (w32 (Z.land (w64 (w64 (r1 + kModN) + sd)) (mask W)))
        else Some (w32 (Z.land (w64 (r1 + kModN)) (mask W))));
  u ← get a kPlusPModN;
  a1 ← set a kPlusPModN (wv W (u + Z.land r1 (mask W)));
  v ← get a1 (w64 (k + q) mod n);
  a2 ← set a1 (w64 (k + q) mod n) (wv W (v + Z.land r2 (mask W)));
  set a2 kModN r2.

(** The body of the second loop of [generate].  The sum of the three words
    is done in [IterValueType] and converted to [result_type] for [T]; the
    two [^=] are done in [IterValueType]. *)
Definition second_round (W : Z) (n p q : Z) (k : Z) (a : list Z)
  : option (list Z) :=
  let kModN := k mod n in
  let kPlusPModN := w64 (k + p) mod n in
  x ← get a kModN;
  y ← get a kPlusPModN;
  z ← get a (w64 (k - 1) mod n);
  let r3 := w32 (1566083941 * T (w32 (wv W (wv W (x + y) + z)))) in
  let r4 := w32 (Z.land (w64 (r3 - kModN)) (mask W)) in
  u ← get a kPlusPModN;
  a1 ← set a kPlusPModN (Z.lxor u (Z.land r3 (mask W)));
  v ← get a1 (w64 (k + q) mod n);
  a2 ← set a1 (w64 (k + q) mod n) (Z.lxor v (Z.land r4 (mask W)));
  set a2 kModN r4.

(** [generate(begin, end)] on the range holding the words [out], of width
    [W]. *)
Definition generate (W : Z) (_seed : list Z) (out : list Z)
  : option (list Z) :=
  if bool_decide (out = []) then Some out
  else
    let a := replicate (length out) (wv W 2341178251) in
    let n := Z.of_nat (length out) in
    let s := Z.of_nat (length _seed) in
    let m := Z.max (w64 (s + 1)) n in
    let t := if bool_decide (623 ≤ n) then 11
             else if bool_decide (68 ≤ n) then 7
             else if bool_decide (39 ≤ n) then 5
             else if bool_decide (7 ≤ n) then 3
             else w64 (n - 1) `div` 2 in
    let p := w64 (n - t) `div` 2 in
    let q := w64 (p + t) in
    a' ← for_each (seqZ 0 (w64 (m - 1))) (first_round W _seed n p q) a;
    for_each (seqZ m (w64 (w64 (m + n) - 1) - m)) (second_round W n p q) a'.

(** A range of [n] words of width [W]. *)
Definition words (W : Z) (n : nat) (a : list Z) : Prop :=
  length a = n ∧ Forall (λ x, 0 ≤ x < 2 ^ W) a.

End SeedSequence.

(** * The helpers on small inputs

    Two members of lengths 2 and 3: begins [[0; 0]], ends [[2; 3]]. *)

Example PlusPlus_inside : PlusPlus 2 0 [1; 0] [2; 3] = [2; 0].
Proof. reflexivity. Qed.

Example PlusPlus_carry : PlusPlus 2 0 [2; 0] [2; 3] = [2; 1].
Proof. reflexivity. Qed.

Example PlusPlus_at_end : PlusPlus 2 0 [2; 3] [2; 3] = [2; 3].
Proof. reflexivity. Qed.

Example MinusMinus_inside : MinusMinus 1 [2; 2] [0; 0] [2; 3] = [2; 1].
Proof. reflexivity. Qed.

Example MinusMinus_borrow : MinusMinus 1 [2; 0] [0; 0] [2; 3] = [1; 0].
Proof. reflexivity. Qed.

Example PlusIs_inside : PlusIs 1 0 [0; 0] [2; 3] 1 = [1; 0].
Proof. reflexivity. Qed.

Example PlusIs_carry : PlusIs 1 0 [0; 0] [2; 3] 4 = [2; 0].
Proof. reflexivity. Qed.

Example MinIs_inside : MinIs 1 [2; 1] [0; 0] [2; 3] 1 = [2; 0].
Proof. reflexivity. Qed.

Example MinIs_from_end : MinIs 1 [2; 3] [0; 0] [2; 3] 1 = [1; 0].
Proof. reflexivity. Qed.

Example NotEqual_last : NotEqual 1 0 [2; 2] [2; 3] = true.
Proof. reflexivity. Qed.

Example Deref_second : Deref [[10; 11]; [20; 21; 22]]%nat 1 0 [2; 1] [2; 3] = Some 21%nat.
Proof. reflexivity. Qed.

Example operator_minus_example :
  operator_minus (mkConcatenateIterator [2; 2] [0; 0] [2; 3])
                 (mkConcatenateIterator [1; 0] [0; 0] [2; 3]) = 3.
Proof. reflexivity. Qed.

Example traverse_example :
  traverse [[1; 2]; [3; 4; 5]] 6
    (begin_state [0; 0] [2; 3]) (end_state [0; 0] [2; 3]) = Some [1; 2; 3; 4; 5].
Proof. reflexivity. Qed.

(** * General facts about tuples *)

Section tuple_facts.
Implicit Types l k : Tuple.

Lemma tuple_eq l k :
  length l = length k →
  (∀ i, (i < length l)%nat → l !!! i = k !!! i) → l = k.
Proof.
  intros Hlen Hget. apply (list_eq_same_length _ _ (length l)); [done..|].
  intros i x y Hi Hx Hy.
  apply list_lookup_total_correct in Hx, Hy. specialize (Hget i Hi). congruence.
Qed.

Lemma tuple_le_get l k i : Forall2 Z.le l k → l !!! i ≤ k !!! i.
Proof.
  intros H. revert i. induction H as [|x y l k Hxy _ IH]; intros [|i]; simpl; auto; lia.
Qed.

Lemma Zsum_insert l i v :
  (i < length l)%nat → Zsum (<[i:=v]> l) = Zsum l - l !!! i + v.
Proof.
  revert i. induction l as [|x l IH]; intros [|i] Hi; simpl in *; try lia.
  rewrite IH by lia. lia.
Qed.

Lemma fold_left_Zsum (xs : list Z) a : fold_left Z.add xs a = a + Zsum xs.
Proof.
  revert a. induction xs as [|x xs IH]; intros a; simpl; [lia|].
  rewrite IH. lia.
Qed.

Lemma Zsum_differences l k :
  length l = length k →
  Zsum (map (λ I, l !!! I - k !!! I) (seq 0 (length l))) = Zsum l - Zsum k.
Proof.
  revert k. induction l as [|x l IH]; intros [|y k] Hlen; simplify_eq/=; [done|].
  rewrite <- seq_shift, map_map. simpl.
  rewrite (IH k) by done. lia.
Qed.
End tuple_facts.

Lemma operator_minus_sums a b :
  size a = size b →
  operator_minus a b = Zsum (_iterators a) - Zsum (_iterators b).
Proof.
  intros Hsz. unfold operator_minus, minus, size in *.
  rewrite fold_left_Zsum, Zsum_differences by done. lia.
Qed.

(** * What each helper does, member by member *)

(** [PlusPlus] advances the first member, from [I] on, that is not at its
    end, and nothing else; when there is none it changes nothing. *)
Lemma PlusPlus_cases rest I its end_ :
  (∃ j, (I ≤ j < I + rest)%nat ∧
        (∀ k, (I ≤ k < j)%nat → its !!! k = end_ !!! k) ∧
        its !!! j ≠ end_ !!! j ∧
        PlusPlus rest I its end_ = <[j := its !!! j + 1]> its)
  ∨ ((∀ k, (I ≤ k < I + rest)%nat → its !!! k = end_ !!! k) ∧
     PlusPlus rest I its end_ = its).
Proof.
  revert I. induction rest as [|rest IH]; intros I; simpl.
  - right. split; [intros k Hk; lia | done].
  - case_bool_decide as Hne.
    + left. exists I. split; [lia|]. split; [intros k Hk; lia|]. done.
    + destruct (IH (S I)) as [(j & Hj & Hpre & Hj_ne & ->)|[Hall ->]].
      * left. exists j. split; [lia|]. split; [|done].
        intros k Hk. destruct (decide (k = I)) as [->|]; [done|]. apply Hpre. lia.
      * right. split; [|done].
        intros k Hk. destruct (decide (k = I)) as [->|]; [done|]. apply Hall. lia.
Qed.

(** [NotEqual] answers [false] exactly when the two tuples agree at every
    index it scans. *)
Lemma NotEqual_false rest I a b :
  NotEqual rest I a b = false ↔
  ∀ i, (I ≤ i ≤ I + rest)%nat → a !!! i = b !!! i.
Proof.
  revert I. induction rest as [|rest IH]; intros I; simpl.
  - rewrite bool_decide_eq_false. split.
    + intros H i Hi. replace i with I by lia. by apply dec_stable.
    + intros H Hne. apply Hne, H. lia.
  - case_bool_decide as Hne.
    + split; [done|]. intros H. exfalso. apply Hne, H. lia.
    + rewrite IH. split.
      * intros H i Hi. destruct (decide (i = I)) as [->|]; [done|]. apply H. lia.
      * intros H i Hi. apply H. lia.
Qed.

Lemma NotEqual_true rest I a b :
  NotEqual rest I a b = true ↔
  ∃ i, (I ≤ i ≤ I + rest)%nat ∧ a !!! i ≠ b !!! i.
Proof.
  split.
  - revert I. induction rest as [|rest IH]; intros I; simpl.
    + rewrite bool_decide_eq_true. intros Hd. exists I. split; [lia | done].
    + case_bool_decide as Hne.
      * intros _. exists I. split; [lia | done].
      * intros H. apply IH in H as (i & Hi & Hd). exists i. split; [lia | done].
  - intros (i & Hi & Hd). destruct (NotEqual rest I a b) eqn:Hne; [done|].
    exfalso. apply Hd. by eapply NotEqual_false.
Qed.

Lemma operator_ne_false a b :
  size a = size b →
  operator_ne a b = false ↔ _iterators a = _iterators b.
Proof.
  intros Hsz. unfold operator_ne. rewrite NotEqual_false. unfold size in *. split.
  - intros H. apply tuple_eq; [done|]. intros i Hi. apply H. lia.
  - intros -> i _. done.
Qed.

Lemma operator_ne_true a b :
  size a = size b →
  operator_ne a b = true ↔ _iterators a ≠ _iterators b.
Proof.
  intros Hsz. rewrite <- (operator_ne_false a b Hsz).
  destruct (operator_ne a b); naive_solver.
Qed.

(** * Validity and the distance to the end *)

Lemma in_range_size_begin c : in_range c → length (_begin c) = size c.
Proof. intros [H _]. by apply Forall2_length in H. Qed.

Lemma in_range_size_end c : in_range c → length (_end c) = size c.
Proof. intros [_ H]. by apply Forall2_length in H. Qed.

Lemma Zsum_le l k : Forall2 Z.le l k → Zsum l ≤ Zsum k.
Proof. induction 1; simpl; lia. Qed.

Lemma Zsum_le_eq l k : Forall2 Z.le l k → Zsum l = Zsum k → l = k.
Proof.
  induction 1 as [|x y l k Hxy Hle IH]; simpl; [done|].
  intros Hsum. pose proof (Zsum_le _ _ Hle).
  assert (x = y) as -> by lia. f_equal. apply IH. lia.
Qed.

Lemma remaining_sums c :
  in_range c → remaining c = Zsum (_end c) - Zsum (_iterators c).
Proof.
  intros Hc. unfold remaining. rewrite operator_minus_sums; [done|].
  unfold size. simpl. by apply in_range_size_end.
Qed.

Lemma remaining_nonneg c : in_range c → 0 ≤ remaining c.
Proof.
  intros Hc. rewrite remaining_sums by done.
  destruct Hc as [_ Hc]. apply Zsum_le in Hc. lia.
Qed.

Lemma remaining_zero c :
  in_range c → remaining c = 0 ↔ _iterators c = _end c.
Proof.
  intros Hc. rewrite remaining_sums by done. split.
  - intros H. apply Zsum_le_eq; [apply Hc | lia].
  - intros ->. lia.
Qed.

Lemma operator_ne_end c :
  in_range c → operator_ne c (end_of c) = true ↔ 0 < remaining c.
Proof.
  intros Hc. rewrite operator_ne_true; simpl.
  - pose proof (remaining_nonneg c Hc). rewrite <- (remaining_zero c Hc). lia.
  - unfold size. simpl. symmetry. by apply in_range_size_end.
Qed.

Lemma tuple_le_insert_l l k i v :
  Forall2 Z.le l k → v ≤ k !!! i → Forall2 Z.le (<[i:=v]> l) k.
Proof.
  intros H. revert i. induction H as [|x y l k Hxy Hle IH]; intros [|i] Hv; simpl in *;
    constructor; auto.
Qed.

Lemma tuple_le_insert_r l k i v :
  Forall2 Z.le l k → l !!! i ≤ v → Forall2 Z.le l (<[i:=v]> k).
Proof.
  intros H. revert i. induction H as [|x y l k Hxy Hle IH]; intros [|i] Hv; simpl in *;
    constructor; auto.
Qed.

(** A valid step forward stays in range and brings the cursor one closer
    to the end-state. *)
Lemma operator_inc_step c :
  in_range c → 0 < remaining c →
  in_range (operator_inc c) ∧ remaining (operator_inc c) = remaining c - 1.
Proof.
  intros Hc Hpos. pose proof Hc as [Hb He].
  destruct (PlusPlus_cases (size c) 0 (_iterators c) (_end c))
    as [(j & Hj & _ & Hne & Hpp)|[Hall _]].
  - pose proof (tuple_le_get _ _ j He).
    assert (in_range (operator_inc c)) as Hc'.
    { split; simpl; rewrite Hpp.
      - apply tuple_le_insert_r; [done|]. pose proof (tuple_le_get _ _ j Hb). lia.
      - apply tuple_le_insert_l; [done|]. lia. }
    split; [done|]. rewrite !remaining_sums by done. simpl. rewrite Hpp.
    rewrite Zsum_insert by (unfold size in Hj; lia). lia.
  - exfalso. assert (remaining c = 0); [|lia].
    apply remaining_zero; [done|]. apply tuple_eq.
    + symmetry. by apply in_range_size_end.
    + intros i Hi. apply Hall. unfold size. lia.
Qed.

(** Past the end [operator++] does nothing. *)
Lemma operator_inc_end c :
  in_range c → remaining c = 0 → operator_inc c = c.
Proof.
  intros Hc Hz. apply remaining_zero in Hz; [|done].
  destruct c as [its b e]. simpl in *. subst e. unfold operator_inc, size. simpl. f_equal.
  destruct (PlusPlus_cases (length its) 0 its its) as [(j & _ & _ & Hne & _)|[_ ->]]; done.
Qed.

Lemma iter_inc_end n c : _end (Nat.iter n operator_inc c) = _end c.
Proof. induction n; simpl; done. Qed.

Lemma iter_inc_begin n c : _begin (Nat.iter n operator_inc c) = _begin c.
Proof. induction n; simpl; done. Qed.

Lemma iter_inc_steps n c :
  in_range c → Z.of_nat n ≤ remaining c →
  in_range (Nat.iter n operator_inc c) ∧
  remaining (Nat.iter n operator_inc c) = remaining c - Z.of_nat n.
Proof.
  intros Hc. induction n as [|n IH]; intros Hn; simpl.
  - split; [done | lia].
  - destruct IH as [Hr Hrem]; [lia|].
    destruct (operator_inc_step (Nat.iter n operator_inc c)) as [Hr' Hrem']; [done|lia|].
    split; [done | lia].
Qed.

(** Every reachable cursor of a view whose begins do not exceed its ends is
    in range and carries the begin and end tuples of the view. *)
Lemma reachable_in_range begin end_ c :
  Forall2 Z.le begin end_ → reachable begin end_ c →
  in_range c ∧ _begin c = begin ∧ _end c = end_.
Proof.
  intros Hle. induction 1 as [|c Hc (Hr & Hb & He) Hne].
  - split; [|done]. split; simpl; [|done].
    clear. induction begin; constructor; auto; lia.
  - assert (0 < remaining c) as Hpos.
    { apply operator_ne_end; [done|]. unfold end_of. by rewrite Hb, He. }
    destruct (operator_inc_step c Hr Hpos) as [Hr' _]. done.
Qed.

(** * Counting the steps from the begin-state to the end-state *)

Lemma tuple_le_refl l : Forall2 Z.le l l.
Proof. induction l; constructor; auto; lia. Qed.

Lemma ends_at_le begin Ls :
  length begin = length Ls → Forall2 Z.le begin (ends_at begin Ls).
Proof.
  revert Ls. induction begin as [|b begin IH]; intros [|L Ls] Hlen; simplify_eq/=.
  - constructor.
  - constructor; [lia|]. by apply IH.
Qed.

Lemma Zsum_ends_at begin Ls :
  length begin = length Ls →
  Zsum (ends_at begin Ls) = Zsum begin + Z.of_nat (sum_list Ls).
Proof.
  revert Ls. induction begin as [|b begin IH]; intros [|L Ls] Hlen; simplify_eq/=.
  - done.
  - unfold ends_at in IH. rewrite IH by done. lia.
Qed.

Lemma begin_state_in_range begin end_ :
  Forall2 Z.le begin end_ → in_range (begin_state begin end_).
Proof. intros H. split; simpl; [apply tuple_le_refl | done]. Qed.

Lemma end_of_iter_inc n c : end_of (Nat.iter n operator_inc c) = end_of c.
Proof. unfold end_of. by rewrite iter_inc_begin, iter_inc_end. Qed.

(** From a cursor in range, the end-state is reached after exactly
    [remaining c] steps and not before. *)
Lemma steps_to_end c n :
  in_range c → Z.of_nat n ≤ remaining c →
  operator_eq (Nat.iter n operator_inc c) (end_of c) =
  bool_decide (Z.of_nat n = remaining c).
Proof.
  intros Hc Hn. destruct (iter_inc_steps n c Hc Hn) as [Hr Hrem].
  unfold operator_eq. rewrite <- (end_of_iter_inc n c).
  destruct (operator_ne _ _) eqn:Hne; simpl.
  - apply operator_ne_end in Hne; [|done].
    symmetry. apply bool_decide_eq_false. lia.
  - symmetry. apply bool_decide_eq_true.
    destruct (decide (Z.of_nat n = remaining c)) as [|Hlt]; [done|].
    assert (operator_ne (Nat.iter n operator_inc c)
              (end_of (Nat.iter n operator_inc c)) = true); [|congruence].
    apply operator_ne_end; [done|lia].
Qed.

(** C3: for members of lengths [Ls] (arity at least one), stepping forward
    from the begin-state gives a cursor equal to the end-state after
    [sum_list Ls] steps, and after no smaller number of steps: the number of
    step-forwards from begin-state to end-state is the sum of the lengths. *)
Theorem exhaustion_count (begin : Tuple) (Ls : list nat) :
  (1 ≤ length Ls)%nat → length begin = length Ls →
  let first := begin_state begin (ends_at begin Ls) in
  let last := end_state begin (ends_at begin Ls) in
  operator_eq (Nat.iter (sum_list Ls) operator_inc first) last = true ∧
  ∀ n, (n < sum_list Ls)%nat →
       operator_eq (Nat.iter n operator_inc first) last = false.
Proof.
  intros _ Hlen first last.
  assert (in_range first) as Hr by by apply begin_state_in_range, ends_at_le.
  assert (remaining first = Z.of_nat (sum_list Ls)) as Hrem.
  { rewrite remaining_sums by done. simpl. rewrite Zsum_ends_at by done. lia. }
  change last with (end_of first). split.
  - rewrite steps_to_end by (done || lia). apply bool_decide_eq_true. lia.
  - intros n Hn. rewrite steps_to_end by (done || lia).
    apply bool_decide_eq_false. lia.
Qed.

Lemma exhaustion_count_witness :
  operator_eq (Nat.iter 5 operator_inc (begin_state [0; 0] [2; 3]))
    (end_state [0; 0] [2; 3]) = true ∧
  ∀ n, (n < 5)%nat →
       operator_eq (Nat.iter n operator_inc (begin_state [0; 0] [2; 3]))
         (end_state [0; 0] [2; 3]) = false.
Proof. apply (exhaustion_count [0; 0] [2%nat; 3%nat]); simpl; lia. Defined.

(** * Equality *)

(** C7: two cursors of the same arity (at least one) compare equal with
    [operator==] exactly when their member cursors are equal at every index;
    [operator!=] is the negation of [operator==] and answers [true] exactly
    when some member differs, so stopping the scan at the first difference
    does not change the answer. *)
Theorem equality_pairwise (a b : ConcatenateIterator) :
  (1 ≤ size a)%nat → size a = size b →
  (operator_eq a b = true ↔
   ∀ i, (i < size a)%nat → _iterators a !!! i = _iterators b !!! i) ∧
  operator_ne a b = negb (operator_eq a b) ∧
  (operator_ne a b = true ↔
   ∃ i, (i < size a)%nat ∧ _iterators a !!! i ≠ _iterators b !!! i).
Proof.
  intros HN Hsz. unfold operator_eq. split; [|split].
  - rewrite negb_true_iff. unfold operator_ne. rewrite NotEqual_false.
    split; intros H i Hi; apply H; lia.
  - by rewrite negb_involutive.
  - unfold operator_ne. rewrite NotEqual_true.
    split; intros (i & Hi & Hd); exists i; (split; [lia | done]).
Qed.

Lemma equality_pairwise_witness :
  let a := mkConcatenateIterator [2; 1] [0; 0] [2; 3] in
  let b := mkConcatenateIterator [2; 3] [0; 0] [2; 3] in
  operator_eq a b = false ∧ operator_ne a b = true ∧
  ∃ i, (i < 2)%nat ∧ _iterators a !!! i ≠ _iterators b !!! i.
Proof.
  intros a b.
  destruct (equality_pairwise a b) as (_ & Hneg & Hex); [vm_compute; lia | reflexivity |].
  assert (operator_ne a b = true) as Hne by reflexivity.
  split; [|split; [done|]].
  - rewrite Hneg in Hne. by apply negb_true_iff.
  - by apply Hex.
Defined.

(** * Distance *)

Lemma Zsum_zip_sub l k :
  length l = length k → Zsum (zip_with Z.sub l k) = Zsum l - Zsum k.
Proof.
  revert k. induction l as [|x l IH]; intros [|y k] Hlen; simplify_eq/=; [done|].
  rewrite IH by done. lia.
Qed.

Lemma iter_inc_size n c : size (Nat.iter n operator_inc c) = size c.
Proof.
  induction n as [|n IH]; simpl; [done|]. rewrite <- IH.
  generalize (Nat.iter n operator_inc c). intros x. unfold operator_inc, size at 1. simpl.
  destruct (PlusPlus_cases (size x) 0 (_iterators x) (_end x))
    as [(j & _ & _ & _ & ->)|[_ ->]]; [by rewrite length_insert | done].
Qed.

(** C8: the distance [a - b] of two cursors of the same arity is the sum
    over the member indices of the differences of the member cursors; and
    when [a] is reached from a cursor [b] in range by [d] valid forward
    steps ([d] at most the distance from [b] to the end-state), [a - b] is
    [d] and [b - a] is [-d]. *)
Theorem distance_consistency (a b : ConcatenateIterator) :
  size a = size b →
  operator_minus a b = Zsum (zip_with Z.sub (_iterators a) (_iterators b)) ∧
  ∀ d : nat,
    in_range b → Z.of_nat d ≤ remaining b → a = Nat.iter d operator_inc b →
    operator_minus a b = Z.of_nat d ∧ operator_minus b a = - Z.of_nat d.
Proof.
  intros Hsz. split.
  - rewrite operator_minus_sums, Zsum_zip_sub; done.
  - intros d Hb Hd ->. destruct (iter_inc_steps d b Hb Hd) as [Ha Hrem].
    rewrite !operator_minus_sums by done.
    rewrite !remaining_sums in Hrem by done. rewrite iter_inc_end in Hrem. lia.
Qed.

Lemma distance_consistency_witness :
  let b := mkConcatenateIterator [1; 0] [0; 0] [2; 3] in
  let a := mkConcatenateIterator [2; 2] [0; 0] [2; 3] in
  operator_minus a b = 3 ∧ operator_minus b a = -3.
Proof.
  intros b a.
  destruct (distance_consistency a b) as [_ H]; [reflexivity|].
  apply (H 3%nat).
  - split; repeat constructor; lia.
  - vm_compute. discriminate.
  - reflexivity.
Defined.

(** * Dereference *)

Section deref_facts.
Context {V : Type}.
Variable seqs : list (list V).

(** [Deref] reads the first member, from [I] on, that is not at its end,
    and the last member when there is no such member before it. *)
Lemma Deref_first rest I its end_ i :
  (I ≤ i ≤ I + rest)%nat →
  (∀ j, (I ≤ j < i)%nat → its !!! j = end_ !!! j) →
  its !!! i ≠ end_ !!! i ∨ i = (I + rest)%nat →
  Deref seqs rest I its end_ = star seqs i (its !!! i).
Proof.
  revert I. induction rest as [|rest IH]; intros I Hi Hpre Hlast; simpl.
  - by replace i with I by lia.
  - case_bool_decide as Hne.
    + destruct (decide (i = I)) as [->|]; [done|].
      exfalso. apply Hne, Hpre. lia.
    + assert (i ≠ I) by (intros ->; destruct Hlast; [done | lia]).
      apply IH; [lia | intros j Hj; apply Hpre; lia |].
      destruct Hlast; [by left | right; lia].
Qed.

Lemma first_non_end_Some c i :
  first_non_end c = Some i →
  (i < size c)%nat ∧ _iterators c !!! i ≠ _end c !!! i ∧
  ∀ j, (j < i)%nat → _iterators c !!! j = _end c !!! j.
Proof.
  unfold first_non_end. intros Hf.
  apply fmap_Some in Hf as ([i' x] & Hf & ->). simpl.
  apply list_find_Some in Hf as (Hx & HP & Hpre).
  apply lookup_seq in Hx as [-> Hi]. simpl in *. split; [done|]. split; [done|].
  intros j Hj. apply dec_stable. apply (Hpre j j); [|done].
  apply lookup_seq. split; [done | lia].
Qed.

Lemma first_non_end_exists c :
  (1 ≤ size c)%nat → operator_ne c (end_of c) = true →
  ∃ i, first_non_end c = Some i.
Proof.
  intros HN Hne. unfold operator_ne in Hne. simpl in Hne.
  apply NotEqual_true in Hne as (i & Hi & Hd).
  destruct (list_find_elem_of (λ i, _iterators c !!! i ≠ _end c !!! i)
              (seq 0 (size c)) i) as [[i' x] Hf].
  - apply elem_of_seq. lia.
  - done.
  - exists i'. unfold first_non_end. by rewrite Hf.
Qed.

(** C6: dereferencing a cursor (arity at least one) that is not equal to
    the end-state returns the element under the member cursor of the first
    index, scanning from 0 upward, whose cursor is not at its end; and
    whenever all members before the last are at their ends, the last
    member is dereferenced, whatever its own position. *)
Theorem dereference_first_non_end (c : ConcatenateIterator) :
  (1 ≤ size c)%nat →
  (operator_ne c (end_of c) = true →
   ∃ i, first_non_end c = Some i ∧
        operator_star seqs c = star seqs i (_iterators c !!! i)) ∧
  ((∀ j, (j < size c - 1)%nat → _iterators c !!! j = _end c !!! j) →
   operator_star seqs c =
     star seqs (size c - 1) (_iterators c !!! (size c - 1)%nat)).
Proof.
  intros HN. split.
  - intros Hne. destruct (first_non_end_exists c HN Hne) as [i Hf].
    exists i. split; [done|].
    apply first_non_end_Some in Hf as (Hi & Hd & Hpre).
    unfold operator_star. apply Deref_first; [lia | | by left].
    intros j Hj. apply Hpre. lia.
  - intros Hpre. unfold operator_star. apply Deref_first; [lia | | by right].
    intros j Hj. apply Hpre. lia.
Qed.
End deref_facts.

Lemma dereference_first_non_end_witness :
  let seqs := [[10; 11]; [20; 21; 22]]%nat in
  let c := mkConcatenateIterator [2; 1] [0; 0] [2; 3] in
  first_non_end c = Some 1%nat ∧ operator_star seqs c = Some 21%nat.
Proof.
  intros seqs c.
  destruct (dereference_first_non_end seqs c) as [H _]; [vm_compute; lia|].
  destruct H as (i & Hf & Hs); [reflexivity|].
  split; [reflexivity|]. rewrite Hs.
  assert (i = 1%nat) as -> by (vm_compute in Hf; congruence). reflexivity.
Defined.

(** * Traversal order *)

(** C4: for the concatenation of [[x; y]] and [[p; q; r]], walking from the
    begin-state to the end-state and dereferencing before each step yields
    [x, y, p, q, r] in that order (six turns of the loop are enough: five
    elements and the final comparison). *)
Theorem concatenation_ordering {V : Type} (x y p q r : V) (fuel : nat) :
  (6 ≤ fuel)%nat →
  let seqs := [[x; y]; [p; q; r]] in
  traverse seqs fuel
    (begin_state (begins seqs) (ends seqs))
    (end_state (begins seqs) (ends seqs)) = Some [x; y; p; q; r].
Proof.
  intros Hfuel. do 6 (destruct fuel as [|fuel]; [lia|]). reflexivity.
Qed.

Lemma concatenation_ordering_witness :
  traverse [[1; 2]; [3; 4; 5]]%nat 6
    (begin_state [0; 0] [2; 3]) (end_state [0; 0] [2; 3])
  = Some [1; 2; 3; 4; 5]%nat.
Proof. apply (concatenation_ordering 1%nat 2%nat 3%nat 4%nat 5%nat 6). lia. Defined.

(** * Exhausted members *)

(** [MinusMinus] steps back the last member, from [I] down, that is not at
    its begin, or member 0 when there is none, and nothing else. *)
Lemma MinusMinus_cases I its begin end_ :
  ∃ m, (m ≤ I)%nat ∧
       (∀ k, (m < k ≤ I)%nat → its !!! k = begin !!! k) ∧
       (m = 0%nat ∨ its !!! m ≠ begin !!! m) ∧
       MinusMinus I its begin end_ = <[m := its !!! m - 1]> its.
Proof.
  induction I as [|I IH]; simpl.
  - exists 0%nat. split; [lia|]. split; [intros k Hk; lia|]. split; [by left | done].
  - case_bool_decide as Hne.
    + exists (S I). split; [lia|]. split; [intros k Hk; lia|]. split; [by right | done].
    + destruct IH as (m & Hm & Hpost & Hor & ->).
      exists m. split; [lia|]. split; [|done].
      intros k Hk. destruct (decide (k = S I)) as [->|]; [done|]. apply Hpost. lia.
Qed.

Lemma Deref_skip {V : Type} (seqs seqs' : list (list V)) k rest I its end_ :
  (∀ j, (I ≤ j < k)%nat → its !!! j = end_ !!! j) →
  (k ≤ I + rest)%nat →
  (∀ i, (k ≤ i)%nat → seqs !!! i = seqs' !!! i) →
  Deref seqs rest I its end_ = Deref seqs' rest I its end_.
Proof.
  revert I. induction rest as [|rest IH]; intros I Hpre Hk Hagree; simpl.
  - unfold star. by rewrite Hagree by lia.
  - case_bool_decide as Hne.
    + assert (k ≤ I)%nat.
      { destruct (decide (k ≤ I)%nat); [done|]. exfalso. apply Hne, Hpre. lia. }
      unfold star. by rewrite Hagree by lia.
    + apply IH; [intros j Hj; apply Hpre; lia | lia | done].
Qed.

(** A step forward keeps the members before [k] exhausted. *)
Lemma operator_inc_keeps_exhausted c k :
  exhausted_before k c → exhausted_before k (operator_inc c).
Proof.
  intros Hex j Hj. simpl.
  destruct (PlusPlus_cases (size c) 0 (_iterators c) (_end c))
    as [(i & Hi & _ & Hne & ->)|[_ ->]]; [|by apply Hex].
  rewrite list_lookup_total_insert_ne; [by apply Hex|].
  intros ->. by apply Hne, Hex.
Qed.

(** C5, as the code has it: when the members before index [k] are all at
    their ends, a step forward leaves each of them at its end and changes
    only a member from [k] on; a dereference (while some member from [k] on
    exists) reads only the sequences from [k] on; a step backward leaves
    such a member where it is as long as some member to its right is not at
    its begin; and after any number of steps forward the members before [k]
    are still at their ends. *)
Theorem exhausted_members_stay_frozen {V : Type} (seqs seqs' : list (list V))
    (c : ConcatenateIterator) (k : nat) :
  (1 ≤ size c)%nat → exhausted_before k c →
  (∀ j, (j < k)%nat → _iterators (operator_inc c) !!! j = _end c !!! j) ∧
  (∀ i, _iterators (operator_inc c) !!! i ≠ _iterators c !!! i → (k ≤ i)%nat) ∧
  ((k < size c)%nat → (∀ i, (k ≤ i)%nat → seqs !!! i = seqs' !!! i) →
   operator_star seqs c = operator_star seqs' c) ∧
  (∀ j m, (j < k)%nat → (j < m < size c)%nat →
          _iterators c !!! m ≠ _begin c !!! m →
          _iterators (operator_dec c) !!! j = _end c !!! j) ∧
  (∀ n j, (j < k)%nat →
          _iterators (Nat.iter n operator_inc c) !!! j = _end c !!! j).
Proof.
  intros HN Hex.
  assert (∀ i, _iterators (operator_inc c) !!! i ≠ _iterators c !!! i → (k ≤ i)%nat)
    as Hframe.
  { intros i. simpl.
    destruct (PlusPlus_cases (size c) 0 (_iterators c) (_end c))
      as [(j & Hj & _ & Hne & ->)|[_ ->]]; [|done].
    intros Hd. destruct (decide (j = i)) as [->|Hji].
    - destruct (decide (k ≤ i)%nat); [done|]. exfalso. apply Hne, Hex. lia.
    - exfalso. apply Hd. by apply list_lookup_total_insert_ne. }
  split; [|split; [done|split; [|split]]].
  - intros j Hj. rewrite <- (Hex j Hj). apply dec_stable. intros Hd.
    apply Hframe in Hd. lia.
  - intros Hk Hagree. unfold operator_star.
    apply (Deref_skip seqs seqs' k); [intros j Hj; apply Hex; lia | lia | done].
  - intros j m Hj Hm Hne. simpl. rewrite <- (Hex j Hj).
    destruct (MinusMinus_cases (size c - 1) (_iterators c) (_begin c) (_end c))
      as (m' & Hm' & Hpost & _ & ->).
    apply list_lookup_total_insert_ne. intros ->.
    apply Hne, Hpost. lia.
  - intros n j Hj. rewrite <- (iter_inc_end n c).
    assert (exhausted_before k (Nat.iter n operator_inc c)) as Hn; [|by apply Hn].
    induction n as [|n IH]; [done|]. rewrite Nat.iter_succ.
    by apply operator_inc_keeps_exhausted.
Qed.

Lemma exhausted_members_stay_frozen_witness :
  let c := mkConcatenateIterator [2; 1] [0; 0] [2; 3] in
  _iterators (operator_inc c) !!! 0%nat = 2 ∧
  operator_star [[10; 11]; [20; 21; 22]]%nat c = operator_star [[]; [20; 21; 22]]%nat c ∧
  _iterators (operator_dec c) !!! 0%nat = 2 ∧
  _iterators (Nat.iter 2 operator_inc c) !!! 0%nat = 2.
Proof.
  intros c.
  destruct (exhausted_members_stay_frozen
              [[10; 11]; [20; 21; 22]]%nat [[]; [20; 21; 22]]%nat c 1)
    as (Ha & _ & Hc & Hd & Hn).
  - vm_compute. lia.
  - intros j Hj. assert (j = 0%nat) as -> by lia. reflexivity.
  - split; [apply (Ha 0%nat); lia|]. split; [|split].
    + apply Hc; [vm_compute; lia|]. intros [|[|i]] Hi; [lia|reflexivity|reflexivity].
    + apply (Hd 0%nat 1%nat); [lia | vm_compute; lia | vm_compute; discriminate].
    + apply (Hn 2%nat 0%nat). lia.
Defined.

(** C5 as it is stated does not hold for the step backward: in the
    concatenation of two members of lengths 2 and 3, after two steps forward
    member 0 is at its end and member 1 at its begin; the cursor is not the
    begin-state, and [operator--] moves member 0 off its end. *)
Lemma step_backward_reenters_exhausted_member :
  let first := begin_state [0; 0] [2; 3] in
  let c := Nat.iter 2 operator_inc first in
  _iterators c !!! 0%nat = _end c !!! 0%nat ∧
  operator_ne c first = true ∧
  _iterators (operator_dec c) !!! 0%nat ≠ _end c !!! 0%nat.
Proof. vm_compute. split; [done|]. split; [done|]. discriminate. Qed.

(** * Termination of the jumps *)

Lemma run_PlusIs N end_ rest I its offset fuel :
  (I + rest = N - 1)%nat → (rest < fuel)%nat →
  run (PlusIs_body N end_) fuel I its offset = Some (PlusIs rest I its end_ offset).
Proof.
  revert I its offset fuel.
  induction rest as [|rest IH]; intros I its offset [|fuel] HI Hfuel; try lia;
    simpl; unfold PlusIs_body.
  - rewrite bool_decide_eq_true_2 by lia. done.
  - rewrite bool_decide_eq_false_2 by lia.
    case_bool_decide; [done|]. apply IH; lia.
Qed.

Lemma run_MinIs begin end_ I its offset fuel :
  (I < fuel)%nat →
  run (MinIs_body begin end_) fuel I its offset = Some (MinIs I its begin end_ offset).
Proof.
  revert its offset fuel.
  induction I as [|I IH]; intros its offset [|fuel] Hfuel; try lia;
    simpl; unfold MinIs_body.
  - done.
  - rewrite bool_decide_eq_false_2 by lia.
    replace (S I - 1)%nat with I by lia.
    repeat case_bool_decide; try done; apply IH; lia.
Qed.

(** C9: for a cursor of arity [N] at least one, whatever the positions,
    begins and ends of its members (zero-length members included) and
    whatever the offset, the jump forward and the jump backward return after
    entering at most [N] template instances, with the tuples that
    [operator+=] and [operator-=] produce. *)
Theorem jumps_terminate (c : ConcatenateIterator) (offset : Z) (fuel : nat) :
  (1 ≤ size c)%nat → (size c ≤ fuel)%nat →
  run (PlusIs_body (size c) (_end c)) fuel 0 (_iterators c) offset
    = Some (_iterators (operator_plus_assign c offset)) ∧
  run (MinIs_body (_begin c) (_end c)) fuel (size c - 1) (_iterators c) offset
    = Some (_iterators (operator_minus_assign c offset)).
Proof.
  intros HN Hfuel. split.
  - apply run_PlusIs; lia.
  - apply run_MinIs; lia.
Qed.

Lemma jumps_terminate_witness :
  let c := mkConcatenateIterator [1; 3] [0; 0] [2; 3] in
  run (PlusIs_body 2 [2; 3]) 2 0 [1; 3] 2 = Some [2; 3] ∧
  run (MinIs_body [0; 0] [2; 3]) 2 1 [1; 3] 2 = Some [0; 0].
Proof.
  intros c. apply (jumps_terminate c 2 2); vm_compute; lia.
Defined.

(** * Jump forward against repeated steps *)

Lemma insert_get_id (l : Tuple) i v : v = l !!! i → <[i:=v]> l = l.
Proof.
  intros ->. apply list_insert_id'. intros Hi. by apply list_lookup_lookup_total_lt.
Qed.

(** [PlusIs] changes members [I .. I+rest-1] only. *)
Lemma PlusIs_frame rest I its end_ offset i :
  (i < I ∨ I + rest ≤ i)%nat → PlusIs rest I its end_ offset !!! i = its !!! i.
Proof.
  revert I its offset. induction rest as [|rest IH]; intros I its offset Hi; simpl; [done|].
  case_bool_decide.
  - apply list_lookup_total_insert_ne. lia.
  - rewrite IH by lia. apply list_lookup_total_insert_ne. lia.
Qed.

Lemma PlusIs_length rest I its end_ offset :
  length (PlusIs rest I its end_ offset) = length its.
Proof.
  revert I its offset. induction rest as [|rest IH]; intros I its offset; simpl; [done|].
  case_bool_decide; [|rewrite IH]; apply length_insert.
Qed.

(** The last member is never moved by [operator+=]. *)
Lemma operator_plus_assign_last c offset :
  (1 ≤ size c)%nat →
  _iterators (operator_plus_assign c offset) !!! (size c - 1)%nat
  = _iterators c !!! (size c - 1)%nat.
Proof. intros HN. simpl. apply PlusIs_frame. lia. Qed.

Lemma PlusIs_zero rest I its end_ :
  (∀ i, its !!! i ≤ end_ !!! i) → PlusIs rest I its end_ 0 = its.
Proof.
  revert I. induction rest as [|rest IH]; intros I Hle; simpl; [done|].
  pose proof (Hle I). case_bool_decide.
  - apply insert_get_id. lia.
  - rewrite (insert_get_id its I) by lia.
    replace (0 - (end_ !!! I - its !!! I)) with 0 by lia. by apply IH.
Qed.

Lemma dist_from_insert rest I its end_ i v :
  (i < I)%nat → dist_from rest I (<[i:=v]> its) end_ = dist_from rest I its end_.
Proof.
  revert I. induction rest as [|rest IH]; intros I Hi; simpl; [done|].
  rewrite IH by lia. by rewrite list_lookup_total_insert_ne by lia.
Qed.

Lemma get_insert_le (its end_ : Tuple) I v :
  (∀ i, its !!! i ≤ end_ !!! i) → v ≤ end_ !!! I →
  ∀ i, <[I:=v]> its !!! i ≤ end_ !!! i.
Proof.
  intros Hle Hv i. rewrite list_lookup_total_insert. case_decide as Hd; [|done].
  destruct Hd as [-> _]. done.
Qed.

(** One more step after a jump by [k] is the jump by [k + 1], as long as the
    jump ends before the last member. *)
Lemma PlusPlus_PlusIs rest extra I its end_ k :
  (∀ i, its !!! i ≤ end_ !!! i) → (I + rest ≤ length its)%nat →
  0 ≤ k → k + 1 ≤ dist_from rest I its end_ →
  PlusPlus (rest + extra) I (PlusIs rest I its end_ k) end_
  = PlusIs rest I its end_ (k + 1).
Proof.
  revert I its k. induction rest as [|rest IH]; intros I its k Hle Hlen Hk Hd;
    simpl in *; [lia|].
  pose proof (Hle I) as HI. set (d := end_ !!! I - its !!! I) in *.
  destruct (decide (d > k)) as [Hgt|Hngt].
  - rewrite (bool_decide_eq_true_2 (d > k)) by done.
    rewrite list_lookup_total_insert_eq by lia.
    rewrite (bool_decide_eq_true_2 (its !!! I + k ≠ end_ !!! I)) by lia.
    rewrite list_insert_insert_eq.
    destruct (decide (d > k + 1)) as [Hgt'|Hngt'].
    + rewrite (bool_decide_eq_true_2 (d > k + 1)) by done. f_equal. lia.
    + rewrite (bool_decide_eq_false_2 (d > k + 1)) by done.
      replace (k + 1 - d) with 0 by lia.
      rewrite PlusIs_zero; [f_equal; lia|].
      apply get_insert_le; [done | lia].
  - rewrite (bool_decide_eq_false_2 (d > k)) by done.
    rewrite (bool_decide_eq_false_2 (d > k + 1)) by lia.
    rewrite PlusIs_frame by lia.
    rewrite list_lookup_total_insert_eq by lia.
    rewrite (bool_decide_eq_false_2 (its !!! I + d ≠ end_ !!! I)) by (intros ?; lia).
    replace (k + 1 - d) with (k - d + 1) by lia.
    apply IH.
    + apply get_insert_le; [done | lia].
    + rewrite length_insert. lia.
    + lia.
    + rewrite dist_from_insert by lia. lia.
Qed.

(** What the code does for C1: for a cursor in range, [k] steps forward and
    one jump by [k] give the same cursor as long as [k] does not exceed the
    distance that the members before the last one still have to go. *)
Lemma jump_forward_agrees_before_last c (k : nat) :
  in_range c → (1 ≤ size c)%nat →
  Z.of_nat k ≤ dist_from (size c - 1) 0 (_iterators c) (_end c) →
  Nat.iter k operator_inc c = operator_plus_assign c (Z.of_nat k).
Proof.
  intros Hc HN. pose proof Hc as [_ He].
  induction k as [|k IH]; intros Hk.
  - simpl. unfold operator_plus_assign.
    rewrite PlusIs_zero by (intros i; by apply tuple_le_get). by destruct c.
  - rewrite Nat.iter_succ, IH by lia.
    unfold operator_inc, operator_plus_assign, size. simpl.
    rewrite PlusIs_length. f_equal.
    replace (length (_iterators c)) with ((size c - 1) + 1)%nat at 1 by (unfold size in *; lia).
    fold (size c).
    rewrite PlusPlus_PlusIs; [f_equal; lia | | unfold size; lia | lia | lia].
    intros i. by apply tuple_le_get.
Qed.

(** C1 fails on the code: in the concatenation of two members of lengths 2
    and 3 the begin-state is 5 steps from the end-state; three steps forward
    put the cursor at member positions [2; 1], the jump by 3 puts it at
    [2; 0], the last member not moved, and the two cursors compare
    different. *)
Theorem jump_forward_skips_last_member :
  let c := begin_state [0; 0] [2; 3] in
  reachable [0; 0] [2; 3] c ∧ remaining c = 5 ∧
  _iterators (Nat.iter 3 operator_inc c) = [2; 1] ∧
  _iterators (operator_plus_assign c 3) = [2; 0] ∧
  operator_eq (Nat.iter 3 operator_inc c) (operator_plus_assign c 3) = false.
Proof. split; [constructor|]. vm_compute. done. Qed.

(** * Jump forward then backward *)

(** C2 fails on the code: in the concatenation of three members of lengths
    2, 3 and 1 the jump forward by 3 from the begin-state ends at member
    positions [2; 1; 0]; the jump backward by 3 from there measures member 1
    against its end (distance 2) instead of its begin, and ends at
    [1; 0; 0], not at the begin-state. *)
Theorem jump_forward_backward_not_identity :
  let c := begin_state [0; 0; 0] [2; 3; 1] in
  reachable [0; 0; 0] [2; 3; 1] c ∧ remaining c = 6 ∧
  _iterators (operator_plus_assign c 3) = [2; 1; 0] ∧
  _iterators (operator_minus_assign (operator_plus_assign c 3) 3) = [1; 0; 0] ∧
  operator_eq (operator_minus_assign (operator_plus_assign c 3) 3) c = false.
Proof. split; [constructor|]. vm_compute. done. Qed.

(** * Post-decrement *)

(** C10 fails on the code: [operator--(int)] returns the copy but then
    applies [operator++]; on one member of length 2 with the cursor at
    position 1 it leaves the cursor at position 2, where [operator--] gives
    position 0. *)
Theorem post_decrement_steps_forward :
  let c := mkConcatenateIterator [1] [0] [2] in
  operator_ne c (begin_state [0] [2]) = true ∧
  (operator_post_dec c).1 = c ∧
  _iterators (operator_post_dec c).2 = [2] ∧
  _iterators (operator_dec c) = [0] ∧
  operator_eq (operator_post_dec c).2 (operator_dec c) = false.
Proof. vm_compute. done. Qed.

(** * Further properties of the steps *)

Lemma cursor_eq (a b : ConcatenateIterator) :
  _iterators a = _iterators b → _begin a = _begin b → _end a = _end b → a = b.
Proof. destruct a, b; simpl; by intros -> -> ->. Qed.

Lemma operator_inc_size c : size (operator_inc c) = size c.
Proof.
  unfold operator_inc, size at 1. simpl.
  destruct (PlusPlus_cases (size c) 0 (_iterators c) (_end c))
    as [(j & _ & _ & _ & ->)|[_ ->]]; [by rewrite length_insert | done].
Qed.

Lemma operator_dec_size c : size (operator_dec c) = size c.
Proof.
  unfold operator_dec, size at 1. simpl.
  destruct (MinusMinus_cases (size c - 1) (_iterators c) (_begin c) (_end c))
    as (m & _ & _ & _ & ->). by rewrite length_insert.
Qed.

Lemma step_forward_at_end_aux c : _iterators c = _end c → operator_inc c = c.
Proof.
  intros Heq. apply cursor_eq; [|done..]. simpl.
  destruct (PlusPlus_cases (size c) 0 (_iterators c) (_end c))
    as [(j & _ & _ & Hne & _)|[_ ->]]; [|done].
  exfalso. apply Hne. by rewrite Heq.
Qed.

(** X1: on a cursor whose members are all at their ends, [operator++] finds
    no member to advance and returns the cursor unchanged. *)
Theorem step_forward_at_end (c : ConcatenateIterator) :
  _iterators c = _end c → operator_inc c = c.
Proof. apply step_forward_at_end_aux. Qed.

Lemma step_forward_at_end_witness :
  operator_inc (end_state [0; 0] [2; 3]) = end_state [0; 0] [2; 3].
Proof. apply step_forward_at_end. reflexivity. Defined.

(** X2: a step forward from a cursor in range that differs from the
    end-state keeps the arity, leaves every member between its begin and its
    end, and brings the cursor exactly one closer to the end-state. *)
Theorem step_forward_in_range (c : ConcatenateIterator) :
  in_range c → operator_ne c (end_of c) = true →
  size (operator_inc c) = size c ∧ in_range (operator_inc c) ∧
  remaining (operator_inc c) = remaining c - 1.
Proof.
  intros Hc Hne. split; [apply operator_inc_size|].
  apply operator_inc_step; [done|]. by apply operator_ne_end.
Qed.

Lemma step_forward_in_range_witness :
  let c := mkConcatenateIterator [2; 1] [0; 0] [2; 3] in
  size (operator_inc c) = 2%nat ∧ in_range (operator_inc c) ∧
  remaining (operator_inc c) = 1.
Proof.
  intros c. apply (step_forward_in_range c); [|reflexivity].
  split; repeat constructor; lia.
Defined.

Lemma tuple_ne_get (l k : Tuple) :
  length l = length k → l ≠ k → ∃ i, (i < length l)%nat ∧ l !!! i ≠ k !!! i.
Proof.
  revert k. induction l as [|x l IH]; intros [|y k] Hlen Hne; simplify_eq/=.
  destruct (decide (x = y)) as [->|Hxy].
  - destruct (IH k) as (i & Hi & Hd); [done | congruence |].
    exists (S i). split; [lia | done].
  - exists 0%nat. split; [lia | done].
Qed.

(** A step backward from a cursor in range, some member of which is not at
    its begin, moves one member back by one and stays in range. *)
Lemma operator_dec_step c :
  in_range c → _iterators c ≠ _begin c →
  ∃ m, (m < size c)%nat ∧ _iterators c !!! m ≠ _begin c !!! m ∧
       (∀ k, (m < k < size c)%nat → _iterators c !!! k = _begin c !!! k) ∧
       _iterators (operator_dec c) = <[m := _iterators c !!! m - 1]> (_iterators c) ∧
       in_range (operator_dec c).
Proof.
  intros Hc Hne. pose proof Hc as [Hb He].
  destruct (tuple_ne_get (_iterators c) (_begin c)) as (i & Hi & Hd);
    [by rewrite in_range_size_begin | done |].
  destruct (MinusMinus_cases (size c - 1) (_iterators c) (_begin c) (_end c))
    as (m & Hm & Hpost & Hor & Hmm).
  fold (size c) in Hi.
  assert (_iterators c !!! m ≠ _begin c !!! m) as Hm_ne.
  { destruct Hor as [->|]; [|done].
    destruct (decide (i = 0%nat)) as [->|]; [done|].
    exfalso. apply Hd, Hpost. lia. }
  exists m. split; [lia|]. split; [done|]. split; [intros k Hk; apply Hpost; lia|].
  split; [done|]. split; simpl; rewrite Hmm.
  - apply tuple_le_insert_r; [done|]. pose proof (tuple_le_get _ _ m Hb). lia.
  - apply tuple_le_insert_l; [done|]. pose proof (tuple_le_get _ _ m He). lia.
Qed.

(** X3: a step backward from a cursor in range that is not at the
    begin-state keeps the arity, leaves every member between its begin and
    its end, and takes the cursor exactly one further from the end-state. *)
Theorem step_backward_in_range (c : ConcatenateIterator) :
  in_range c → _iterators c ≠ _begin c →
  size (operator_dec c) = size c ∧ in_range (operator_dec c) ∧
  remaining (operator_dec c) = remaining c + 1.
Proof.
  intros Hc Hne. split; [apply operator_dec_size|].
  destruct (operator_dec_step c Hc Hne) as (m & Hm & _ & _ & Hits & Hr).
  split; [done|]. rewrite !remaining_sums by done. rewrite Hits. simpl.
  rewrite Zsum_insert by done. lia.
Qed.

Lemma step_backward_in_range_witness :
  let c := mkConcatenateIterator [2; 0] [0; 0] [2; 3] in
  size (operator_dec c) = 2%nat ∧ in_range (operator_dec c) ∧
  remaining (operator_dec c) = 4.
Proof.
  intros c. apply (step_backward_in_range c); [|discriminate].
  split; repeat constructor; lia.
Defined.

(** X4: [operator--] does not test for the begin-state: on a cursor (arity
    at least one) whose members are all at their begins it moves member 0 to
    one before its begin, so the cursor is no longer in range. *)
Theorem step_backward_at_begin (c : ConcatenateIterator) :
  (1 ≤ size c)%nat → _iterators c = _begin c →
  _iterators (operator_dec c) = <[0%nat := _begin c !!! 0%nat - 1]> (_begin c) ∧
  ¬ in_range (operator_dec c).
Proof.
  intros HN Heq.
  assert (_iterators (operator_dec c)
          = <[0%nat := _begin c !!! 0%nat - 1]> (_begin c)) as Hits.
  { simpl.
    destruct (MinusMinus_cases (size c - 1) (_iterators c) (_begin c) (_end c))
      as (m & Hm & _ & Hor & ->).
    destruct Hor as [->|Hne]; [by rewrite Heq|]. exfalso. apply Hne. by rewrite Heq. }
  split; [done|]. intros [Hb _]. rewrite Hits in Hb. simpl in Hb.
  pose proof (tuple_le_get _ _ 0%nat Hb) as Hle.
  rewrite list_lookup_total_insert_eq in Hle; [lia|].
  rewrite <- Heq. unfold size in HN. lia.
Qed.

Lemma step_backward_at_begin_witness :
  let c := begin_state [0; 0] [2; 3] in
  _iterators (operator_dec c) = [-1; 0] ∧ ¬ in_range (operator_dec c).
Proof. intros c. apply (step_backward_at_begin c); [vm_compute; lia | reflexivity]. Defined.

(** * Forward and backward steps are inverse on a walk *)

Lemma begin_state_shaped begin end_ : shaped (begin_state begin end_).
Proof. intros i j Hij. by right. Qed.

Lemma operator_inc_shaped c : shaped c → shaped (operator_inc c).
Proof.
  intros Hs i j Hij. rewrite operator_inc_size in Hij. simpl.
  destruct (PlusPlus_cases (size c) 0 (_iterators c) (_end c))
    as [(n & Hn & Hpre & Hne & ->)|[_ ->]]; [|by apply Hs].
  destruct (decide (i < n)%nat) as [Hin|Hin].
  - left. rewrite list_lookup_total_insert_ne by lia. apply Hpre. lia.
  - right. rewrite list_lookup_total_insert_ne by lia.
    destruct (decide (i = n)) as [->|].
    + destruct (Hs n j Hij); done.
    + destruct (Hs n j) as [|]; [lia | done | done].
Qed.

Lemma reachable_shaped begin end_ c : reachable begin end_ c → shaped c.
Proof.
  induction 1; [apply begin_state_shaped | by apply operator_inc_shaped].
Qed.

(** On a shaped cursor in range, not at the end-state, the member that
    [operator++] advanced is the one [operator--] then steps back. *)
Lemma operator_dec_inc c :
  in_range c → shaped c → operator_ne c (end_of c) = true →
  operator_dec (operator_inc c) = c.
Proof.
  intros Hc Hs Hne. pose proof Hc as [Hb He].
  apply cursor_eq; [|done..].
  unfold operator_dec. rewrite operator_inc_size. simpl.
  destruct (PlusPlus_cases (size c) 0 (_iterators c) (_end c))
    as [(j & Hj & Hpre & Hj_ne & ->)|[Hall _]].
  - set (its' := <[j := _iterators c !!! j + 1]> (_iterators c)).
    destruct (MinusMinus_cases (size c - 1) its' (_begin c) (_end c))
      as (m & Hm & Hpost & Hor & ->).
    assert (its' !!! j = _iterators c !!! j + 1) as Hj'.
    { unfold its'. apply list_lookup_total_insert_eq. unfold size in Hj. lia. }
    pose proof (tuple_le_get _ _ j Hb) as Hbj.
    assert (m = j) as ->.
    { destruct (decide (m < j)%nat) as [Hlt|Hge].
      - exfalso. specialize (Hpost j). rewrite Hj' in Hpost. lia.
      - destruct (decide (m = j)) as [|Hmj]; [done|]. exfalso.
        assert (its' !!! m = _iterators c !!! m) as Hm'
          by (unfold its'; apply list_lookup_total_insert_ne; lia).
        destruct Hor as [->|Hm_ne]; [lia|]. rewrite Hm' in Hm_ne.
        destruct (Hs j m) as [|]; [lia | done | done]. }
    rewrite Hj'. unfold its'. rewrite list_insert_insert_eq.
    apply insert_get_id. lia.
  - exfalso. apply operator_ne_end in Hne; [|done].
    assert (remaining c = 0); [|lia].
    apply remaining_zero; [done|]. apply tuple_eq.
    + symmetry. by apply in_range_size_end.
    + intros i Hi. apply Hall. unfold size. lia.
Qed.

Lemma operator_ne_self c : operator_ne c c = false.
Proof. by apply operator_ne_false. Qed.

(** X5: on a walk of a view whose begins do not exceed its ends, a step
    forward followed by a step backward returns to the cursor (when the
    cursor is not the end-state), and a step backward followed by a step
    forward returns to the cursor (when it is not the begin-state); the
    cursor stepped back to is again on the walk. *)
Theorem steps_are_inverse (begin end_ : Tuple) (c : ConcatenateIterator) :
  Forall2 Z.le begin end_ → reachable begin end_ c →
  (operator_ne c (end_state begin end_) = true →
   operator_dec (operator_inc c) = c) ∧
  (operator_ne c (begin_state begin end_) = true →
   operator_inc (operator_dec c) = c ∧ reachable begin end_ (operator_dec c)).
Proof.
  intros Hle Hreach. split.
  - intros Hne.
    destruct (reachable_in_range _ _ _ Hle Hreach) as (Hr & Hb & He).
    apply operator_dec_inc; [done | by eapply reachable_shaped |].
    unfold end_of. by rewrite Hb, He.
  - intros Hne. destruct Hreach as [|c' Hreach' Hne'].
    + by rewrite operator_ne_self in Hne.
    + destruct (reachable_in_range _ _ _ Hle Hreach') as (Hr & Hb & He).
      rewrite operator_dec_inc; [done | done | by eapply reachable_shaped |].
      unfold end_of. by rewrite Hb, He.
Qed.

Lemma steps_are_inverse_witness :
  let c := operator_inc (operator_inc (begin_state [0; 0] [2; 3])) in
  operator_dec (operator_inc c) = c ∧ operator_inc (operator_dec c) = c.
Proof.
  intros c.
  destruct (steps_are_inverse [0; 0] [2; 3] c) as [H1 H2].
  - repeat constructor; lia.
  - repeat (constructor; try reflexivity).
  - split; [by apply H1 | by apply H2].
Defined.

Lemma iter_inc_reachable begin end_ n :
  Forall2 Z.le begin end_ →
  Z.of_nat n ≤ remaining (begin_state begin end_) →
  reachable begin end_ (Nat.iter n operator_inc (begin_state begin end_)).
Proof.
  intros Hle. induction n as [|n IH]; intros Hn; simpl; [constructor|].
  constructor; [apply IH; lia|].
  pose proof (begin_state_in_range _ _ Hle) as Hr.
  destruct (iter_inc_steps n _ Hr) as [Hr' Hrem]; [lia|].
  change (end_state begin end_) with (end_of (begin_state begin end_)).
  rewrite <- (end_of_iter_inc n). apply operator_ne_end; [done | lia].
Qed.

Lemma iter_inc_total begin end_ :
  Forall2 Z.le begin end_ →
  Nat.iter (Z.to_nat (remaining (begin_state begin end_))) operator_inc
    (begin_state begin end_) = end_state begin end_.
Proof.
  intros Hle. pose proof (begin_state_in_range _ _ Hle) as Hr.
  pose proof (remaining_nonneg _ Hr) as Hnn.
  set (n := Z.to_nat (remaining (begin_state begin end_))).
  destruct (iter_inc_steps n _ Hr) as [Hr' Hrem]; [lia|].
  apply cursor_eq.
  - assert (_iterators (Nat.iter n operator_inc (begin_state begin end_))
            = _end (Nat.iter n operator_inc (begin_state begin end_))) as ->
      by (apply remaining_zero; [done | lia]).
    by rewrite iter_inc_end.
  - by rewrite iter_inc_begin.
  - by rewrite iter_inc_end.
Qed.

(** X6: for a view whose begins do not exceed its ends and whose members
    have the total length [total], [k] steps backward from the end-state
    ([k] at most [total]) give the cursor that [total - k] steps forward
    from the begin-state give. *)
Theorem walk_back_from_end (begin end_ : Tuple) (k : nat) :
  Forall2 Z.le begin end_ →
  Z.of_nat k ≤ remaining (begin_state begin end_) →
  Nat.iter k operator_dec (end_state begin end_)
  = Nat.iter (Z.to_nat (remaining (begin_state begin end_)) - k) operator_inc
      (begin_state begin end_).
Proof.
  intros Hle. induction k as [|k IH]; intros Hk.
  - rewrite Nat.sub_0_r. simpl. symmetry. by apply iter_inc_total.
  - rewrite Nat.iter_succ, IH by lia.
    set (total := Z.to_nat (remaining (begin_state begin end_))) in *.
    replace (total - k)%nat with (S (total - S k)) by lia.
    rewrite Nat.iter_succ.
    pose proof (iter_inc_reachable begin end_ (total - S k) Hle) as Hreach.
    assert (Z.of_nat (total - S k) ≤ remaining (begin_state begin end_)) as Hn by lia.
    specialize (Hreach Hn).
    destruct (reachable_in_range _ _ _ Hle Hreach) as (Hr & Hb & He).
    apply operator_dec_inc; [done | by eapply reachable_shaped |].
    apply operator_ne_end; [done|].
    destruct (iter_inc_steps (total - S k) _ (begin_state_in_range _ _ Hle) Hn)
      as [_ Hrem]. lia.
Qed.

Lemma walk_back_from_end_witness :
  Nat.iter 2 operator_dec (end_state [0; 0] [2; 3])
  = Nat.iter 3 operator_inc (begin_state [0; 0] [2; 3]).
Proof.
  apply (walk_back_from_end [0; 0] [2; 3] 2).
  - repeat constructor; lia.
  - vm_compute. discriminate.
Defined.

(** * The elements a walk reads *)

Lemma begins_get {V} (seqs : list (list V)) i :
  (i < length seqs)%nat → begins seqs !!! i = 0.
Proof.
  revert i. induction seqs as [|s ss IH]; intros i Hi; simpl in *; [lia|].
  destruct i as [|i]; [done|]. apply IH. lia.
Qed.

Lemma ends_get {V} (seqs : list (list V)) i :
  (i < length seqs)%nat → ends seqs !!! i = Z.of_nat (length (seqs !!! i)).
Proof.
  revert i. induction seqs as [|s ss IH]; intros i Hi; simpl in *; [lia|].
  destruct i as [|i]; [done|]. apply IH. lia.
Qed.

Lemma begins_le_ends {V} (seqs : list (list V)) :
  Forall2 Z.le (begins seqs) (ends seqs).
Proof. induction seqs; constructor; [lia | done]. Qed.

Section walk_elements.
Context {V : Type}.
Variable seqs : list (list V).

Lemma begin_state_cursor_of : cursor_of seqs (begin_state (begins seqs) (ends seqs)).
Proof. split; [|done]. apply begin_state_in_range, begins_le_ends. Qed.

Lemma cursor_of_size c : cursor_of seqs c → size c = length seqs.
Proof.
  intros (Hr & _ & He). rewrite <- (in_range_size_end c Hr), He.
  unfold ends. by rewrite length_map.
Qed.

Lemma cursor_of_bounds c i :
  cursor_of seqs c → (i < length seqs)%nat →
  0 ≤ _iterators c !!! i ≤ Z.of_nat (length (seqs !!! i)).
Proof.
  intros ([Hb He] & Hbeg & Hend) Hi. rewrite Hbeg in Hb. rewrite Hend in He.
  pose proof (tuple_le_get _ _ i Hb). pose proof (tuple_le_get _ _ i He).
  rewrite begins_get in * by done. rewrite ends_get in * by done. lia.
Qed.

Lemma elems_from_insert_lt rest I its j v :
  (j < I)%nat → elems_from seqs rest I (<[j:=v]> its) = elems_from seqs rest I its.
Proof.
  revert I. induction rest as [|rest IH]; intros I Hj; simpl; [done|].
  rewrite IH by lia. by rewrite list_lookup_total_insert_ne by lia.
Qed.

Lemma elems_from_end rest I its :
  (I + rest ≤ length seqs)%nat →
  (∀ k, (I ≤ k < I + rest)%nat → its !!! k = ends seqs !!! k) →
  elems_from seqs rest I its = [].
Proof.
  revert I. induction rest as [|rest IH]; intros I Hlen Hall; simpl; [done|].
  rewrite IH by (lia || intros k Hk; apply Hall; lia).
  rewrite Hall, ends_get by lia. rewrite Nat2Z.id, drop_all. done.
Qed.

Lemma elems_from_step rest I its j x :
  (I ≤ j < I + rest)%nat → (j < length its)%nat → (j < length seqs)%nat →
  (∀ k, (I ≤ k < j)%nat → its !!! k = ends seqs !!! k) →
  0 ≤ its !!! j → (seqs !!! j) !! Z.to_nat (its !!! j) = Some x →
  elems_from seqs rest I its
  = x :: elems_from seqs rest I (<[j := its !!! j + 1]> its).
Proof.
  revert I. induction rest as [|rest IH]; intros I Hj Hlen Hlen' Hpre Hnn Hx; simpl; [lia|].
  destruct (decide (I = j)) as [->|HIj].
  - rewrite list_lookup_total_insert_eq by done.
    rewrite elems_from_insert_lt by lia.
    rewrite (drop_S _ _ _ Hx). simpl.
    by replace (Z.to_nat (its !!! j + 1)) with (S (Z.to_nat (its !!! j))) by lia.
  - rewrite list_lookup_total_insert_ne by done.
    rewrite (Hpre I), ends_get by lia. rewrite Nat2Z.id, drop_all. simpl.
    apply IH; [lia | done | done | intros k Hk; apply Hpre; lia | done | done].
Qed.

Lemma elems_from_begins rest I :
  elems_from seqs rest I (begins seqs) = concat (take rest (drop I seqs)).
Proof.
  revert I. induction rest as [|rest IH]; intros I; simpl; [done|].
  rewrite IH. destruct (seqs !! I) as [s|] eqn:Hs.
  - rewrite begins_get by (by eapply lookup_lt_Some).
    rewrite (drop_S _ _ _ Hs). simpl.
    by rewrite (list_lookup_total_correct _ _ _ Hs).
  - pose proof Hs as Hge. apply lookup_ge_None in Hge.
    rewrite (drop_ge seqs I), (drop_ge seqs (S I)) by lia.
    rewrite (list_lookup_total_alt seqs), Hs. simpl.
    by rewrite drop_nil, take_nil.
Qed.

Lemma elems_begin_state :
  elems_from seqs (length seqs) 0 (begins seqs) = concat seqs.
Proof. rewrite elems_from_begins. simpl. by rewrite firstn_all. Qed.

(** A cursor that is not the end-state reads the first element ahead of it
    and a step forward leaves the others. *)
Lemma cursor_step c :
  cursor_of seqs c → operator_ne c (end_of c) = true →
  ∃ x, operator_star seqs c = Some x ∧
       elems_from seqs (size c) 0 (_iterators c)
       = x :: elems_from seqs (size c) 0 (_iterators (operator_inc c)) ∧
       cursor_of seqs (operator_inc c).
Proof.
  intros Hc Hne. pose proof Hc as (Hr & Hb & He).
  pose proof (cursor_of_size c Hc) as Hsz.
  assert (0 < remaining c) as Hpos by by apply operator_ne_end.
  destruct (operator_inc_step c Hr Hpos) as [Hr' _].
  simpl. destruct (PlusPlus_cases (size c) 0 (_iterators c) (_end c))
    as [(j & Hj & Hpre & Hj_ne & Hpp)|[Hall _]].
  - pose proof (cursor_of_bounds c j Hc) as Hbd.
    rewrite He, ends_get in Hj_ne by lia.
    destruct (lookup_lt_is_Some_2 (seqs !!! j) (Z.to_nat (_iterators c !!! j)))
      as [x Hx]; [lia|].
    exists x. split; [|split].
    + unfold operator_star. rewrite (Deref_first seqs _ _ _ _ j);
        [ | lia | intros k Hk; apply Hpre; lia | left; rewrite He, ends_get by lia; done].
      unfold star. by rewrite bool_decide_eq_true_2 by lia.
    + rewrite Hpp.
      apply elems_from_step; [lia | unfold size in Hj; lia | lia | | lia | done].
      intros k Hk. rewrite <- He. apply Hpre. lia.
    + done.
  - exfalso. assert (remaining c = 0); [|lia].
    apply remaining_zero; [done|]. apply tuple_eq.
    + symmetry. by apply in_range_size_end.
    + intros i Hi. apply Hall. unfold size. lia.
Qed.

Lemma cursor_at_end c :
  cursor_of seqs c → operator_ne c (end_of c) = false →
  operator_star seqs c = None ∧ elems_from seqs (size c) 0 (_iterators c) = [] ∧
  operator_inc c = c.
Proof.
  intros Hc Hne. pose proof Hc as (Hr & Hb & He).
  pose proof (cursor_of_size c Hc) as Hsz.
  apply operator_ne_false in Hne; [|unfold size; simpl; symmetry; by apply in_range_size_end].
  simpl in Hne. split; [|split].
  - unfold operator_star.
    rewrite (Deref_first seqs _ _ _ _ (size c - 1)); [ | lia | | right; lia].
    + unfold star. case_bool_decide; [|done]. apply lookup_ge_None_2.
      destruct (decide (size c = 0%nat)) as [Hz|Hnz].
      * rewrite Hz in Hsz. destruct seqs; [simpl; lia | done].
      * rewrite Hne, He, ends_get by lia. lia.
    + intros k _. by rewrite Hne.
  - apply elems_from_end; [lia|]. intros k _. by rewrite Hne, He.
  - by apply step_forward_at_end_aux.
Qed.

Lemma elems_iter c n :
  cursor_of seqs c →
  cursor_of seqs (Nat.iter n operator_inc c) ∧
  elems_from seqs (size c) 0 (_iterators (Nat.iter n operator_inc c))
  = drop n (elems_from seqs (size c) 0 (_iterators c)).
Proof.
  intros Hc. induction n as [|n [IHc IH]]; [done|]. rewrite Nat.iter_succ.
  pose proof (iter_inc_size n c) as Hsz.
  destruct (operator_ne (Nat.iter n operator_inc c)
              (end_of (Nat.iter n operator_inc c))) eqn:Hne.
  - destruct (cursor_step _ IHc Hne) as (x & _ & Hel & Hc').
    split; [done|]. rewrite Hsz, IH in Hel.
    replace (S n) with (n + 1)%nat by lia. rewrite <- drop_drop, Hel. done.
  - destruct (cursor_at_end _ IHc Hne) as (_ & Hel & ->).
    split; [done|]. rewrite Hsz, IH in Hel. rewrite IH.
    replace (S n) with (n + 1)%nat by lia. rewrite <- drop_drop, Hel. done.
Qed.

Lemma star_head c :
  cursor_of seqs c →
  operator_star seqs c = head (elems_from seqs (size c) 0 (_iterators c)).
Proof.
  intros Hc. destruct (operator_ne c (end_of c)) eqn:Hne.
  - destruct (cursor_step _ Hc Hne) as (x & -> & -> & _). done.
  - destruct (cursor_at_end _ Hc Hne) as (-> & -> & _). done.
Qed.

Lemma traverse_elems fuel c :
  cursor_of seqs c →
  (length (elems_from seqs (size c) 0 (_iterators c)) < fuel)%nat →
  traverse seqs fuel c (end_of c)
  = Some (elems_from seqs (size c) 0 (_iterators c)).
Proof.
  revert c. induction fuel as [|fuel IH]; intros c Hc Hfuel; [lia|].
  cbn [traverse]. destruct (operator_ne c (end_of c)) eqn:Hne.
  - destruct (cursor_step _ Hc Hne) as (x & Hstar & Hel & Hc').
    pose proof (f_equal length Hel) as Hlen. cbn [length] in Hlen.
    specialize (IH (operator_inc c) Hc').
    rewrite operator_inc_size in IH.
    change (end_of (operator_inc c)) with (end_of c) in IH.
    rewrite Hstar, IH by lia. by rewrite Hel.
  - destruct (cursor_at_end _ Hc Hne) as (_ & -> & _). done.
Qed.

Lemma dereference_nth_aux (n : nat) :
  operator_star seqs
    (Nat.iter n operator_inc (begin_state (begins seqs) (ends seqs)))
  = concat seqs !! n.
Proof.
  pose proof begin_state_cursor_of as Hc.
  destruct (elems_iter _ n Hc) as [Hc' Hel].
  rewrite star_head by done. rewrite iter_inc_size, Hel.
  rewrite (cursor_of_size _ Hc). simpl. rewrite elems_begin_state.
  rewrite head_lookup, lookup_drop. f_equal. lia.
Qed.

(** X7: in the concatenation of the whole sequences [seqs], the cursor
    reached after [n] steps forward from the begin-state dereferences to the
    element of index [n] of [concat seqs]; from the end-state on (and for an
    empty concatenation) the dereference has no value. *)
Theorem dereference_nth (n : nat) :
  operator_star seqs
    (Nat.iter n operator_inc (begin_state (begins seqs) (ends seqs)))
  = concat seqs !! n.
Proof. apply dereference_nth_aux. Qed.

(** X8: walking the concatenation of the whole sequences [seqs] from the
    begin-state to the end-state, dereferencing before each step, returns
    exactly [concat seqs], as soon as the loop may take one turn more than
    there are elements. *)
Theorem traverse_concat (fuel : nat) :
  (length (concat seqs) < fuel)%nat →
  traverse seqs fuel (begin_state (begins seqs) (ends seqs))
    (end_state (begins seqs) (ends seqs)) = Some (concat seqs).
Proof.
  intros Hfuel. pose proof begin_state_cursor_of as Hc.
  pose proof (traverse_elems fuel _ Hc) as Ht.
  rewrite (cursor_of_size _ Hc) in Ht. simpl in Ht.
  rewrite elems_begin_state in Ht. by apply Ht.
Qed.
End walk_elements.

Lemma traverse_concat_witness :
  traverse [[1; 2]; []; [3]]%nat 4 (begin_state [0; 0; 0] [2; 0; 1])
    (end_state [0; 0; 0] [2; 0; 1]) = Some [1; 2; 3]%nat.
Proof. apply (traverse_concat [[1; 2]; []; [3]]%nat 4). simpl. lia. Defined.

(** * Distance, order and equality *)

(** X9: for cursors of the same arity the distance is antisymmetric and
    additive: [a - b = -(b - a)], [(a - b) + (b - c) = a - c], and the
    distance of a cursor to itself is zero. *)
Theorem distance_algebra (a b c : ConcatenateIterator) :
  size a = size b → size b = size c →
  operator_minus a b = - operator_minus b a ∧
  operator_minus a b + operator_minus b c = operator_minus a c ∧
  operator_minus a a = 0.
Proof.
  intros Hab Hbc. rewrite !operator_minus_sums by congruence. lia.
Qed.

Lemma distance_algebra_witness :
  let a := mkConcatenateIterator [2; 2] [0; 0] [2; 3] in
  let b := mkConcatenateIterator [1; 0] [0; 0] [2; 3] in
  let c := mkConcatenateIterator [0; 0] [0; 0] [2; 3] in
  operator_minus a b = - operator_minus b a ∧
  operator_minus a b + operator_minus b c = operator_minus a c ∧
  operator_minus a a = 0.
Proof. intros a b c. apply (distance_algebra a b c); reflexivity. Defined.

Lemma operator_minus_iter c m n :
  in_range c → Z.of_nat m ≤ remaining c → Z.of_nat n ≤ remaining c →
  operator_minus (Nat.iter n operator_inc c) (Nat.iter m operator_inc c)
  = Z.of_nat n - Z.of_nat m.
Proof.
  intros Hc Hm Hn.
  destruct (iter_inc_steps m c Hc Hm) as [Hrm Hm'].
  destruct (iter_inc_steps n c Hc Hn) as [Hrn Hn'].
  rewrite operator_minus_sums by (by rewrite !iter_inc_size).
  rewrite !remaining_sums in Hm', Hn' by done. rewrite !iter_inc_end in *. lia.
Qed.

(** X10: on the walk from a cursor in range, the comparison operators order
    the cursors by the number of steps taken: for [m] and [n] valid step
    counts, [<], [>], [<=], [>=] and [==] on the cursors after [m] and after
    [n] steps answer as [m < n], [m > n], [m <= n], [m >= n] and [m = n]. *)
Theorem order_by_steps (c : ConcatenateIterator) (m n : nat) :
  in_range c → Z.of_nat m ≤ remaining c → Z.of_nat n ≤ remaining c →
  let a := Nat.iter m operator_inc c in
  let b := Nat.iter n operator_inc c in
  operator_lt a b = bool_decide (m < n)%nat ∧
  operator_gt a b = bool_decide (n < m)%nat ∧
  operator_le a b = bool_decide (m ≤ n)%nat ∧
  operator_ge a b = bool_decide (n ≤ m)%nat ∧
  operator_eq a b = bool_decide (m = n).
Proof.
  intros Hc Hm Hn a b.
  assert (∀ i j, Z.of_nat i ≤ remaining c → Z.of_nat j ≤ remaining c →
            operator_lt (Nat.iter i operator_inc c) (Nat.iter j operator_inc c)
            = bool_decide (i < j)%nat) as Hlt.
  { intros i j Hi Hj. unfold operator_lt. rewrite operator_minus_iter by done.
    apply bool_decide_ext. lia. }
  unfold operator_gt, operator_le, operator_ge, a, b. rewrite !Hlt by done.
  split; [done|]. split; [done|].
  split; [rewrite <- bool_decide_not; apply bool_decide_ext; lia|].
  split; [rewrite <- bool_decide_not; apply bool_decide_ext; lia|].
  unfold operator_eq. destruct (decide (m = n)) as [->|Hmn].
  - rewrite operator_ne_self. by rewrite bool_decide_eq_true_2.
  - rewrite (bool_decide_eq_false_2 _ Hmn). apply negb_false_iff.
    apply operator_ne_true; [by rewrite !iter_inc_size|].
    intros Heq. pose proof (operator_minus_iter c m n Hc Hm Hn) as Hd.
    rewrite operator_minus_sums in Hd by (by rewrite !iter_inc_size).
    rewrite Heq in Hd. lia.
Qed.

Lemma order_by_steps_witness :
  let c := begin_state [0; 0] [2; 3] in
  let a := Nat.iter 1 operator_inc c in
  let b := Nat.iter 4 operator_inc c in
  operator_lt a b = true ∧ operator_gt a b = false ∧ operator_le a b = true ∧
  operator_ge a b = false ∧ operator_eq a b = false.
Proof.
  intros c. apply (order_by_steps c 1 4).
  - split; repeat constructor; lia.
  - vm_compute. discriminate.
  - vm_compute. discriminate.
Defined.

(** X11: on cursors of the same arity [operator==] is an equivalence: it is
    reflexive, symmetric and transitive. *)
Theorem equality_is_equivalence (a b c : ConcatenateIterator) :
  size a = size b → size b = size c →
  operator_eq a a = true ∧
  operator_eq a b = operator_eq b a ∧
  (operator_eq a b = true → operator_eq b c = true → operator_eq a c = true).
Proof.
  intros Hab Hbc. unfold operator_eq. split; [by rewrite operator_ne_self|]. split.
  - f_equal. destruct (operator_ne b a) eqn:Hba.
    + apply operator_ne_true; [done|]. apply operator_ne_true in Hba; [|done]. congruence.
    + apply operator_ne_false; [done|]. apply operator_ne_false in Hba; [|done]. congruence.
  - rewrite !negb_true_iff. intros H1 H2.
    apply operator_ne_false in H1, H2; [|done..].
    apply operator_ne_false; congruence.
Qed.

Lemma equality_is_equivalence_witness :
  let a := mkConcatenateIterator [2; 1] [0; 0] [2; 3] in
  let b := mkConcatenateIterator [2; 1] [0; 0] [2; 3] in
  operator_eq a a = true ∧ operator_eq a b = operator_eq b a ∧
  (operator_eq a b = true → operator_eq b a = true → operator_eq a a = true).
Proof. intros a b. apply (equality_is_equivalence a b a); reflexivity. Defined.

(** * Jumps that end before the last member *)

Lemma dist_from_begins {V} (seqs : list (list V)) rest I :
  (I + rest ≤ length seqs)%nat →
  dist_from rest I (begins seqs) (ends seqs)
  = Z.of_nat (length (concat (take rest (drop I seqs)))).
Proof.
  revert I. induction rest as [|rest IH]; intros I HI; simpl; [done|].
  rewrite IH, begins_get, ends_get by lia.
  destruct (lookup_lt_is_Some_2 seqs I) as [s Hs]; [lia|].
  rewrite (drop_S _ _ _ Hs). simpl.
  rewrite (list_lookup_total_correct _ _ _ Hs), length_app. lia.
Qed.

(** X12: for a cursor in range (arity at least one) and an offset [k] that
    does not exceed the distance the members before the last one still have
    to go, the copy returned by [operator+] is the cursor reached by [k]
    steps forward. *)
Theorem plus_within_prefix (c : ConcatenateIterator) (k : nat) :
  in_range c → (1 ≤ size c)%nat →
  Z.of_nat k ≤ dist_from (size c - 1) 0 (_iterators c) (_end c) →
  operator_plus c (Z.of_nat k) = Nat.iter k operator_inc c.
Proof.
  intros Hc HN Hk. unfold operator_plus. symmetry.
  by apply jump_forward_agrees_before_last.
Qed.

Lemma plus_within_prefix_witness :
  operator_plus (mkConcatenateIterator [1; 0; 0] [0; 0; 0] [2; 3; 1]) 3
  = Nat.iter 3 operator_inc (mkConcatenateIterator [1; 0; 0] [0; 0; 0] [2; 3; 1]).
Proof.
  apply (plus_within_prefix (mkConcatenateIterator [1; 0; 0] [0; 0; 0] [2; 3; 1]) 3).
  - split; repeat constructor; lia.
  - vm_compute. lia.
  - vm_compute. discriminate.
Defined.

(** X13: in the concatenation of the whole sequences [seqs] (at least one
    of them), indexing the begin-state with an offset [k] that does not
    exceed the total length of the sequences before the last one returns the
    element of index [k] of [concat seqs]. *)
Theorem index_within_prefix {V : Type} (seqs : list (list V)) (k : nat) :
  (1 ≤ length seqs)%nat →
  (k ≤ length (concat (take (length seqs - 1) seqs)))%nat →
  operator_index seqs (begin_state (begins seqs) (ends seqs)) (Z.of_nat k)
  = concat seqs !! k.
Proof.
  intros HN Hk. pose proof (begin_state_cursor_of seqs) as Hc.
  pose proof (cursor_of_size _ _ Hc) as Hsz.
  unfold operator_index, operator_plus.
  rewrite <- jump_forward_agrees_before_last.
  - apply dereference_nth_aux.
  - apply Hc.
  - lia.
  - rewrite Hsz. cbn [begin_state _iterators _end].
    rewrite dist_from_begins by lia. rewrite drop_0. lia.
Qed.

Lemma index_within_prefix_witness :
  operator_index [[10; 11]; [20; 21; 22]; [30]]%nat
    (begin_state [0; 0; 0] [2; 3; 1]) 4 = Some 22%nat.
Proof.
  apply (index_within_prefix [[10; 11]; [20; 21; 22]; [30]]%nat 4); simpl; lia.
Defined.

(** * A forward jump stays in range *)




(** * SplitIterator *)

Module SplitFacts.
Import SplitIterator.

Example tokens_abc :
  tokens 6 (construct 0 (str "a,b,c") (str ",")) (construct 5 (str "a,b,c") (str ","))
  = Some [str "a"; str "b"; str "c"].
Proof. vm_compute. reflexivity. Qed.

Example tokens_empty_middle :
  tokens 6 (construct 0 (str "a,,b") (str ",")) (construct 4 (str "a,,b") (str ","))
  = Some [str "a"; str ""; str "b"].
Proof. vm_compute. reflexivity. Qed.

Example tokens_trailing :
  tokens 6 (construct 0 (str "a,") (str ",")) (construct 2 (str "a,") (str ","))
  = Some [str "a"].
Proof. vm_compute. reflexivity. Qed.

Example tokens_leading :
  tokens 6 (construct 0 (str ",a") (str ",")) (construct 2 (str ",a") (str ","))
  = Some [str ""; str "a"].
Proof. vm_compute. reflexivity. Qed.

Example tokens_long_delimiter :
  tokens 6 (construct 0 (str "cabab") (str "ab")) (construct 5 (str "cabab") (str "ab"))
  = Some [str "c"; str ""].
Proof. vm_compute. reflexivity. Qed.

Lemma find_in_eq d s i :
  find_in d s i =
  if decide (take (length d) s = d) then Some i
  else match s with [] => None | _ :: s' => find_in d s' (S i) end.
Proof. by destruct s. Qed.

Lemma find_in_Some d s i j :
  find_in d s i = Some j →
  ∃ k, j = (i + k)%nat ∧ (k ≤ length s)%nat ∧
       take (length d) (drop k s) = d ∧
       ∀ k', (k' < k)%nat → take (length d) (drop k' s) ≠ d.
Proof.
  revert i. induction s as [|c s IH]; intros i; rewrite find_in_eq.
  - case_decide as Hd; [|done]. intros [= <-].
    exists 0%nat. split; [lia|]. split; [done|]. split; [done|]. intros k' Hk'. lia.
  - case_decide as Hd.
    + intros [= <-]. exists 0%nat. split; [lia|]. split; [simpl; lia|].
      split; [done|]. intros k' Hk'. lia.
    + intros H. apply IH in H as (k & -> & Hk & Hfound & Hmin).
      exists (S k). split; [lia|]. split; [simpl; lia|]. split; [done|].
      intros [|k'] Hk'; [done|]. simpl. apply Hmin. lia.
Qed.

Lemma find_in_None d s i :
  find_in d s i = None → ∀ k, take (length d) (drop k s) ≠ d.
Proof.
  revert i. induction s as [|c s IH]; intros i; rewrite find_in_eq.
  - case_decide as Hd; [done|]. intros _ k. by rewrite drop_nil.
  - case_decide as Hd; [done|]. intros H [|k]; [done|]. simpl. by eapply IH.
Qed.

Lemma occurrence_length (d t : Str) k :
  d ≠ [] → take (length d) (drop k t) = d → (k + length d ≤ length t)%nat.
Proof.
  intros Hd Hocc. apply (f_equal length) in Hocc.
  rewrite length_take, length_drop in Hocc.
  assert (0 < length d)%nat by (destruct d; simpl; [done | lia]). lia.
Qed.

Section find_facts.
Variables s d : Str.
Hypothesis Hlen : Z.of_nat (length s) < npos.

Lemma find_cases pos :
  0 ≤ pos ≤ Z.of_nat (length s) →
  (find s d pos = npos ∧
   ∀ j, (Z.to_nat pos ≤ j)%nat → take (length d) (drop j s) ≠ d)
  ∨ (∃ i, find s d pos = Z.of_nat i ∧ (Z.to_nat pos ≤ i ≤ length s)%nat ∧
          take (length d) (drop i s) = d ∧
          ∀ j, (Z.to_nat pos ≤ j < i)%nat → take (length d) (drop j s) ≠ d).
Proof.
  intros Hpos. unfold find. rewrite bool_decide_eq_true_2 by lia.
  destruct (find_in d (drop (Z.to_nat pos) s) (Z.to_nat pos)) as [i|] eqn:Hf.
  - right. apply find_in_Some in Hf as (k & -> & Hk & Hocc & Hmin).
    rewrite length_drop in Hk. rewrite drop_drop in Hocc.
    exists (Z.to_nat pos + k)%nat. split; [done|]. split; [lia|]. split; [done|].
    intros j Hj. specialize (Hmin (j - Z.to_nat pos)%nat).
    rewrite drop_drop in Hmin. replace (Z.to_nat pos + (j - Z.to_nat pos))%nat with j in Hmin by lia.
    apply Hmin. lia.
  - left. split; [done|]. intros j Hj.
    pose proof (find_in_None _ _ _ Hf (j - Z.to_nat pos)%nat) as Hn.
    rewrite drop_drop in Hn.
    by replace (Z.to_nat pos + (j - Z.to_nat pos))%nat with j in Hn by lia.
Qed.
End find_facts.

Lemma until_nul_id (s : Str) : zero ∉ s → until_nul s = s.
Proof.
  induction s as [|c s IH]; [done|]. intros Hz. simpl.
  apply not_elem_of_cons in Hz as [Hc Hs].
  rewrite decide_False by done. by rewrite IH.
Qed.

Lemma occurrence_in_take (d x : Str) k n :
  (k + length d ≤ n)%nat →
  take (length d) (drop k (take n x)) = take (length d) (drop k x).
Proof.
  intros Hk. rewrite !take_drop_commute, take_take. do 2 f_equal. lia.
Qed.

Section walk.
Variables s d : Str.
Hypothesis Hd : d ≠ [].
Hypothesis Hnul : zero ∉ s.
Hypothesis Hlen : Z.of_nat (length s) < npos.

Lemma wrap_small x : 0 ≤ x ≤ Z.of_nat (length s) → wrap x = x.
Proof. intros Hx. unfold wrap, npos in *. apply Z.mod_small. lia. Qed.

Lemma drop_no_nul n : zero ∉ drop n s.
Proof. intros Hin. apply Hnul. by apply (subseteq_drop n s). Qed.

(** One turn of the loop from a cursor before the end. *)
Lemma step_cases it :
  on_walk s d it → _currentPos it < Z.of_nat (length s) →
  let t := operator_star it in
  let it' := operator_inc it in
  delimiter_free d t ∧ on_walk s d it' ∧ _currentPos it < _currentPos it' ∧
  ((_currentPos it' = Z.of_nat (length s) ∧
    (drop (Z.to_nat (_currentPos it)) s = t ∨
     drop (Z.to_nat (_currentPos it)) s = t ++ d))
   ∨ (_currentPos it' < Z.of_nat (length s) ∧
      drop (Z.to_nat (_currentPos it)) s
      = t ++ d ++ drop (Z.to_nat (_currentPos it')) s)).
Proof.
  intros (Hs & Hdl & Hcur & Hlast) Hlt. specialize (Hlast Hlt).
  destruct it as [cur last s0 d0]. simpl in *. subst s0 d0.
  unfold operator_star, operator_inc. simpl.
  destruct (find_cases s d cur) as [[Hf Hnone]|(i & Hf & Hi & Hocc & Hmin)]; [lia|..].
  - (* no further delimiter: the rest of the string is the last token *)
    rewrite Hlast, Hf. rewrite bool_decide_eq_false_2 by (intros H; by apply H).
    rewrite bool_decide_eq_true_2 by done. simpl.
    unfold substr_cstr. rewrite until_nul_id by apply drop_no_nul.
    split; [|split; [|split]].
    + intros k Hk. rewrite drop_drop in Hk. by apply (Hnone (Z.to_nat cur + k)%nat); [lia|].
    + split; [done|]. split; [done|]. simpl. split; [lia|lia].
    + lia.
    + left. split; [done|]. by left.
  - pose proof (occurrence_length d s i Hd Hocc) as Hfit.
    assert (Z.of_nat i ≠ npos) as Hnp by lia.
    rewrite Hlast, Hf.
    rewrite (bool_decide_eq_true_2 (Z.of_nat i ≠ npos)) by done.
    rewrite (bool_decide_eq_false_2 (Z.of_nat i = npos)) by done.
    rewrite (wrap_small (Z.of_nat i - cur)) by lia.
    rewrite (wrap_small (Z.of_nat (length s) - Z.of_nat (length d))) by lia.
    unfold substr_count.
    replace (Z.to_nat (Z.of_nat i - cur)) with (i - Z.to_nat cur)%nat by lia.
    set (c := Z.to_nat cur) in *.
    set (t := take (i - c) (drop c s)).
    assert (0 < length d)%nat as Hdpos by (destruct d; simpl; [done | lia]).
    assert (delimiter_free d t) as Hfree.
    { intros k Hk. pose proof (occurrence_length d t k Hd Hk) as Hkfit.
      unfold t in Hk, Hkfit. rewrite length_take, length_drop in Hkfit.
      rewrite occurrence_in_take in Hk by lia. rewrite drop_drop in Hk.
      apply (Hmin (c + k)%nat); [lia | done]. }
    assert (drop c s = t ++ d ++ drop (i + length d) s) as Hsplit.
    { rewrite <- (take_drop (i - c) (drop c s)) at 1. fold t. f_equal.
      rewrite drop_drop. replace (c + (i - c))%nat with i by lia.
      rewrite <- (take_drop (length d) (drop i s)) at 1.
      by rewrite Hocc, drop_drop. }
    case_bool_decide as Hend; simpl.
    + split; [done|]. split; [|split; [lia|]].
      * split; [done|]. split; [done|]. simpl. split; [lia|lia].
      * left. split; [done|]. right. rewrite Hsplit.
        rewrite (drop_ge s (i + length d)) by lia. by rewrite app_nil_r.
    + rewrite (wrap_small (Z.of_nat i + Z.of_nat (length d))) by lia.
      split; [done|]. split; [|split; [lia|]].
      * split; [done|]. split; [done|]. simpl. split; [lia|done].
      * right. split; [lia|].
        by replace (Z.to_nat (Z.of_nat i + Z.of_nat (length d)))
          with (i + length d)%nat by lia.
Qed.
End walk.

Lemma join_cons d t ts :
  ts ≠ [] → join d (t :: ts) = t ++ d ++ join d ts.
Proof. by destruct ts. Qed.

Section walk_tokens.
Variables s d : Str.
Hypothesis Hd : d ≠ [].
Hypothesis Hnul : zero ∉ s.
Hypothesis Hlen : Z.of_nat (length s) < npos.

(** The loop from any cursor of a walk: it ends, and the tokens it reads,
    joined by the delimiter, are the rest of the string. *)
Lemma tokens_spec fuel it last :
  on_walk s d it → _currentPos last = Z.of_nat (length s) →
  (length s - Z.to_nat (_currentPos it) < fuel)%nat →
  ∃ ts, tokens fuel it last = Some ts ∧
        (_currentPos it = Z.of_nat (length s) → ts = []) ∧
        (_currentPos it < Z.of_nat (length s) → ts ≠ []) ∧
        Forall (delimiter_free d) ts ∧
        (drop (Z.to_nat (_currentPos it)) s = join d ts ∨
         drop (Z.to_nat (_currentPos it)) s = join d ts ++ d).
Proof.
  intros Hw Hl. revert it Hw. induction fuel as [|fuel IH]; intros it Hw Hfuel; [lia|].
  pose proof Hw as (_ & _ & Hcur & _).
  cbn [tokens]. unfold operator_ne. rewrite Hl.
  case_bool_decide as Hne.
  - assert (_currentPos it < Z.of_nat (length s)) as Hlt by lia.
    destruct (step_cases s d Hd Hnul Hlen it Hw Hlt) as (Hfree & Hw' & Hadv & Hcases).
    destruct (IH (operator_inc it) Hw') as (ts & -> & Hnil & Hcons & Hall & Hrest); [lia|].
    exists (operator_star it :: ts).
    split; [done|]. split; [lia|]. split; [done|]. split; [by constructor|].
    destruct Hcases as [[Hend Hs]|[Hmore Hs]].
    + rewrite (Hnil Hend). done.
    + specialize (Hcons Hmore). rewrite join_cons by done. rewrite Hs.
      destruct Hrest as [->| ->]; [by left|]. right. by rewrite <- !app_assoc.
  - exists []. split; [done|]. split; [done|]. split; [lia|]. split; [constructor|].
    left. simpl. apply drop_ge. lia.
Qed.
End walk_tokens.

Lemma construct_on_walk s d : on_walk s d (construct 0 s d).
Proof.
  split; [done|]. split; [done|]. simpl. split; [lia|]. by intros _.
Qed.

(** X14: splitting a string [s] without NUL characters on a non-empty
    delimiter [d] ends within [length s + 1] turns of the loop; no token
    contains the delimiter; the tokens joined by the delimiter give back
    [s], or [s] without one final delimiter; and there is no token exactly
    when [s] is empty. *)
Theorem split_round_trip (s d : Str) (last : SplitIterator) (fuel : nat) :
  d ≠ [] → zero ∉ s → Z.of_nat (length s) < npos →
  _currentPos last = Z.of_nat (length s) → (length s < fuel)%nat →
  ∃ ts, tokens fuel (construct 0 s d) last = Some ts ∧
        Forall (delimiter_free d) ts ∧
        (s = join d ts ∨ s = join d ts ++ d) ∧
        (ts = [] ↔ s = []).
Proof.
  intros Hd Hnul Hlen Hl Hfuel.
  destruct (tokens_spec s d Hd Hnul Hlen fuel (construct 0 s d) last)
    as (ts & Ht & Hnil & Hcons & Hall & Hrest);
    [apply construct_on_walk | done | simpl; lia |].
  simpl in *. exists ts. split; [done|]. split; [done|]. split; [done|]. split.
  - intros ->. destruct s; [done|]. exfalso. apply Hcons; [simpl; lia | done].
  - intros ->. by apply Hnil.
Qed.

Lemma split_round_trip_witness :
  ∃ ts, tokens 5 (construct 0 (str "a,b,") (str ",")) (construct 4 (str "a,b,") (str ","))
        = Some ts ∧
        Forall (delimiter_free (str ",")) ts ∧
        (str "a,b," = join (str ",") ts ∨ str "a,b," = join (str ",") ts ++ str ",") ∧
        (ts = [] ↔ str "a,b," = []).
Proof.
  apply (split_round_trip (str "a,b,") (str ",") _ 5).
  - discriminate.
  - by apply (bool_decide_unpack _).
  - reflexivity.
  - reflexivity.
  - simpl. lia.
Defined.

(** X15: with an empty delimiter and a non-empty string [operator++] leaves
    the begin cursor where it is, so the loop towards the end of the string
    never ends, whatever the number of turns allowed. *)
Theorem split_empty_delimiter (s : Str) (last : SplitIterator) (fuel : nat) :
  s ≠ [] → Z.of_nat (length s) < npos →
  _currentPos last = Z.of_nat (length s) →
  operator_inc (construct 0 s []) = construct 0 s [] ∧
  tokens fuel (construct 0 s []) last = None.
Proof.
  intros Hs Hlen Hl.
  assert (0 < length s)%nat as Hpos by (destruct s; simpl; [done | lia]).
  assert (construct 0 s [] = mkSplitIterator 0 0 s []) as Hc.
  { unfold construct, find. simpl. rewrite bool_decide_eq_true_2 by lia.
    by rewrite find_in_eq. }
  assert (operator_inc (mkSplitIterator 0 0 s []) = mkSplitIterator 0 0 s []) as Hinc.
  { unfold operator_inc. simpl.
    change (Z.of_nat 0) with 0. rewrite Z.sub_0_r.
    assert (wrap (Z.of_nat (length s)) = Z.of_nat (length s)) as ->
      by (apply Z.mod_small; unfold npos in Hlen; lia).
    rewrite bool_decide_eq_false_2 by lia.
    change (wrap (0 + 0)) with 0.
    change (find s [] 0) with (_last (construct 0 s [])). by rewrite Hc. }
  rewrite Hc. split; [done|].
  induction fuel as [|fuel IH]; [done|]. cbn [tokens].
  unfold operator_ne at 1. simpl. rewrite Hl, bool_decide_eq_true_2 by lia.
  by rewrite Hinc, IH.
Qed.

Lemma split_empty_delimiter_witness :
  operator_inc (construct 0 (str "ab") []) = construct 0 (str "ab") [] ∧
  tokens 100 (construct 0 (str "ab") []) (construct 2 (str "ab") []) = None.
Proof.
  apply (split_empty_delimiter (str "ab") _ 100); [discriminate | reflexivity | reflexivity].
Defined.

(** X16: when the delimiter occurs nowhere in the non-empty string [s],
    the split yields a single token: the characters of [s] before its first
    NUL character, that is [s] itself when it has none. *)
Theorem split_without_delimiter (s d : Str) (last : SplitIterator) (fuel : nat) :
  s ≠ [] → delimiter_free d s →
  _currentPos last = Z.of_nat (length s) → (2 ≤ fuel)%nat →
  tokens fuel (construct 0 s d) last = Some [until_nul s] ∧
  (zero ∉ s → until_nul s = s).
Proof.
  intros Hs Hfree Hl Hfuel. split; [|apply until_nul_id].
  assert (0 < length s)%nat as Hpos by (destruct s; simpl; [done | lia]).
  assert (construct 0 s d = mkSplitIterator 0 npos s d) as ->.
  { unfold construct, find. simpl. rewrite bool_decide_eq_true_2 by lia.
    change (drop (Z.to_nat 0) s) with s. change (Z.to_nat 0) with 0%nat.
    destruct (find_in d s 0) as [i|] eqn:Hf; [|done].
    apply find_in_Some in Hf as (k & _ & _ & Hocc & _). by destruct (Hfree k). }
  destruct fuel as [|[|fuel]]; [lia..|]. cbn [tokens].
  unfold operator_ne at 1. simpl. rewrite Hl, bool_decide_eq_true_2 by lia.
  unfold operator_inc. simpl.
  unfold operator_ne. simpl. rewrite Hl, bool_decide_eq_false_2 by (intros H; by apply H).
  done.
Qed.

Lemma split_without_delimiter_witness :
  tokens 2 (construct 0 (str "abc") (str ",")) (construct 3 (str "abc") (str ","))
  = Some [until_nul (str "abc")] ∧
  (zero ∉ str "abc" → until_nul (str "abc") = str "abc").
Proof.
  apply (split_without_delimiter (str "abc") (str ",") _ 2).
  - discriminate.
  - intros [|[|[|[|k]]]]; discriminate.
  - reflexivity.
  - lia.
Defined.

End SplitFacts.

(** * SeedSequence *)

Module SeedFacts.
Import SeedSequence.

Example generate_32 :
  generate 32 [1; 2; 3] [0; 0; 0] = Some [1874421832; 4293108227; 1303934395].
Proof. vm_compute. reflexivity. Qed.

Example generate_64 :
  generate 64 [1; 2] [0; 0; 0] = Some [340690117; 3222015134; 6829244239].
Proof. vm_compute. reflexivity. Qed.

Lemma w32_range x : 0 ≤ w32 x < 2 ^ 32.
Proof. unfold w32. apply Z.mod_pos_bound. lia. Qed.

Lemma wv_range W x : 0 ≤ W → 0 ≤ wv W x < 2 ^ W.
Proof. intros HW. unfold wv. apply Z.mod_pos_bound. by apply Z.pow_pos_nonneg. Qed.

Lemma pow_32_le W : 32 ≤ W → 2 ^ 32 ≤ 2 ^ W.
Proof. intros HW. apply Z.pow_le_mono_r; lia. Qed.

Lemma mask_ones W : 32 ≤ W → mask W = Z.ones 32.
Proof.
  intros HW. unfold mask. pose proof (pow_32_le W HW) as Hp.
  change (Z.shiftl 1 31) with (2 ^ 31). change (Z.ones 32) with (2 ^ 32 - 1).
  assert (wv W (2 ^ 31) = 2 ^ 31) as -> by (apply Z.mod_small; lia).
  change (Z.shiftl (2 ^ 31) 1) with (2 ^ 32).
  destruct (decide (W = 32)) as [->|Hne]; [done|].
  assert (2 ^ 32 < 2 ^ W) by (apply Z.pow_lt_mono_r; lia).
  assert (wv W (2 ^ 32) = 2 ^ 32) as -> by (apply Z.mod_small; lia).
  apply Z.mod_small. lia.
Qed.

Lemma land_mask_range W r : 32 ≤ W → 0 ≤ Z.land r (mask W) < 2 ^ 32.
Proof.
  intros HW. rewrite mask_ones by done. rewrite Z.land_ones by lia.
  apply Z.mod_pos_bound. lia.
Qed.

Lemma lxor_range W a b :
  0 ≤ W → 0 ≤ a < 2 ^ W → 0 ≤ b < 2 ^ W → 0 ≤ Z.lxor a b < 2 ^ W.
Proof.
  intros HW Ha Hb.
  assert (0 ≤ Z.lxor a b) as Hnn by (apply Z.lxor_nonneg; lia).
  split; [done|].
  destruct (decide (Z.lxor a b = 0)) as [->|Hz]; [lia|].
  apply Z.log2_lt_pow2; [lia|].
  pose proof (Z.log2_lxor a b) as Hl.
  assert (∀ c, 0 ≤ c < 2 ^ W → Z.log2 c < W ∨ c = 0) as Hlog.
  { intros c Hc. destruct (decide (c = 0)) as [->|]; [by right|].
    left. apply Z.log2_lt_pow2; lia. }
  assert (0 < W).
  { destruct (decide (W = 0)) as [->|]; [|lia]. exfalso.
    change (2 ^ 0) with 1 in *. assert (a = 0) as -> by lia.
    assert (b = 0) as -> by lia. done. }
  destruct (Hlog a Ha) as [? | ->]; destruct (Hlog b Hb) as [? | ->];
    change (Z.log2 0) with 0 in *; lia.
Qed.

Lemma get_words W n a i :
  words W n a → 0 ≤ i < Z.of_nat n → ∃ x, get a i = Some x ∧ 0 ≤ x < 2 ^ W.
Proof.
  intros [Hlen Hall] Hi. unfold get.
  destruct (lookup_lt_is_Some_2 a (Z.to_nat i)) as [x Hx]; [lia|].
  exists x. split; [done|].
  exact (Forall_lookup_1 (λ x, 0 ≤ x < 2 ^ W) a (Z.to_nat i) x Hall Hx).
Qed.

Lemma set_words W n a i v :
  words W n a → 0 ≤ i < Z.of_nat n → 0 ≤ v < 2 ^ W →
  ∃ a', set a i v = Some a' ∧ words W n a'.
Proof.
  intros [Hlen Hall] Hi Hv. unfold set.
  rewrite bool_decide_eq_true_2 by lia. eexists. split; [done|].
  split; [by rewrite length_insert|]. by apply Forall_insert.
Qed.

Lemma index_range n x : 0 < n → 0 ≤ x mod n < n.
Proof. intros Hn. apply Z.mod_pos_bound. lia. Qed.

Ltac read_word H :=
  match goal with
  | |- context [get ?a ?i] =>
      let x := fresh "x" in
      let Hx := fresh "Hx" in
      let Hr := fresh "Hr" in
      destruct (get_words _ _ a i H) as (x & Hx & Hr);
      [by apply index_range | rewrite Hx; cbn [mbind option_bind]]
  end.

Tactic Notation "write_word" hyp(H) "as" ident(H') :=
  match goal with
  | |- context [set ?a ?i ?v] =>
      let a' := fresh "a" in
      let Ha := fresh "Ha" in
      destruct (set_words _ _ a i v H) as (a' & Ha & H');
      [by apply index_range | | rewrite Ha; cbn [mbind option_bind]]
  end.

Lemma seed_index _seed k :
  0 ≤ k → k ≠ 0 → k ≤ Z.of_nat (length _seed) →
  ∃ sd, get _seed (w64 (k - 1)) = Some sd.
Proof.
  intros Hk Hz Hs. unfold get. apply lookup_lt_is_Some_2.
  unfold w64. pose proof (Z.mod_pos_bound (k - 1) (2 ^ 64)).
  pose proof (Z.mod_le (k - 1) (2 ^ 64)). lia.
Qed.

Lemma w32_word W x : 32 ≤ W → 0 ≤ w32 x < 2 ^ W.
Proof. intros HW. pose proof (w32_range x). pose proof (pow_32_le W HW). lia. Qed.

Lemma first_round_words W _seed (n : nat) p q k a :
  32 ≤ W → (0 < n)%nat → 0 ≤ k → words W n a →
  ∃ a', first_round W _seed (Z.of_nat n) p q k a = Some a' ∧ words W n a'.
Proof.
  intros HW Hn Hk Hw. unfold first_round.
  assert (0 < Z.of_nat n) as Hn' by lia.
  do 3 read_word Hw.
  case_bool_decide as Hz;
    [|case_bool_decide as Hs;
      [destruct (seed_index _seed k Hk Hz Hs) as [sd Hsd]; rewrite Hsd|]];
    cbn [mbind option_bind];
    (write_word Hw as Hw1; [apply wv_range; lia|]);
    read_word Hw1;
    (write_word Hw1 as Hw2; [apply wv_range; lia|]);
    (write_word Hw2 as Hw3; [by apply w32_word|]);
    by eexists.
Qed.

Lemma second_round_words W (n : nat) p q k a :
  32 ≤ W → (0 < n)%nat → words W n a →
  ∃ a', second_round W (Z.of_nat n) p q k a = Some a' ∧ words W n a'.
Proof.
  intros HW Hn Hw. unfold second_round.
  assert (0 < Z.of_nat n) as Hn' by lia.
  assert (∀ r, 0 ≤ Z.land r (mask W) < 2 ^ W) as Hland.
  { intros r. pose proof (land_mask_range W r HW). pose proof (pow_32_le W HW). lia. }
  do 3 read_word Hw.
  write_word Hw as Hw1; [apply lxor_range; [lia | done | apply Hland]|].
  read_word Hw1.
  write_word Hw1 as Hw2; [apply lxor_range; [lia | done | apply Hland]|].
  write_word Hw2 as Hw3; [by apply w32_word|]. by eexists.
Qed.

Lemma for_each_words W n ks body a :
  (∀ k a, k ∈ ks → words W n a → ∃ a', body k a = Some a' ∧ words W n a') →
  words W n a → ∃ a', for_each ks body a = Some a' ∧ words W n a'.
Proof.
  revert a. induction ks as [|k ks IH]; intros a Hbody Hw; simpl; [by eexists|].
  destruct (Hbody k a) as (a1 & -> & Hw1); [left | done |]. simpl.
  apply IH; [|done]. intros k' a' Hk'. apply Hbody. by right.
Qed.

(** X17: on a range of unsigned words of width [W], for [W] from 32 to 64
    bits ([uint32_t] or [uint64_t]), [generate] never reads or writes
    outside the range it is given nor outside the seed array, for every
    seed and every range: it returns, the range keeps its length and every
    word of the result fits the width [W] (on a 64-bit range a word can
    exceed 32 bits).  The previous contents of the range do not matter: two
    ranges of the same length receive the same words. *)
Theorem generate_in_bounds (W : Z) (_seed out out2 : list Z) :
  32 ≤ W ≤ 64 →
  (∃ out', generate W _seed out = Some out' ∧ words W (length out) out') ∧
  (length out = length out2 → generate W _seed out = generate W _seed out2).
Proof.
  intros [HW _]. split.
  - unfold generate. case_bool_decide as Hnil; [subst; by eexists|].
    assert (0 < length out)%nat as Hn by (destruct out; simpl; [done | lia]).
    set (n := length out) in *.
    assert (words W n (replicate n (wv W 2341178251))) as Hw.
    { split; [by rewrite length_replicate|]. apply Forall_replicate.
      apply wv_range. lia. }
    match goal with
    | |- context [for_each ?ks (first_round W ?sd ?nz ?p ?q) ?a] =>
        destruct (for_each_words W n ks (first_round W sd nz p q) a) as (a1 & -> & Hw1);
          [|done|]
    end.
    { intros k a Hk Ha. apply first_round_words; [done | done | | done].
      apply elem_of_seqZ in Hk. lia. }
    cbn [mbind option_bind].
    apply for_each_words; [|done].
    intros k a _ Ha. by apply second_round_words.
  - intros Hlen. unfold generate. rewrite <- Hlen.
    destruct out, out2; simplify_eq/=; done.
Qed.

Lemma generate_in_bounds_witness :
  (∃ out', generate 64 [1; 2] [0; 0; 0] = Some out' ∧ words 64 3 out') ∧
  generate 64 [1; 2] [0; 0; 0] = generate 64 [1; 2] [5; 6; 7].
Proof.
  destruct (generate_in_bounds 64 [1; 2] [0; 0; 0] [5; 6; 7]) as [H1 H2]; [lia|].
  split; [exact H1 | apply H2; reflexivity].
Defined.

(** X18: a seed sequence built from exactly [N] 32-bit values fits its
    array, has size [N], and [param] gives the values back unchanged. *)
Theorem seed_round_trip (N : nat) (values : list Z) :
  length values = N → Forall (λ x, 0 ≤ x < 2 ^ 32) values →
  ∃ _seed, create N values = Some _seed ∧ size _seed = N ∧ param _seed = values.
Proof.
  intros Hlen Hall. unfold create. rewrite bool_decide_eq_true_2 by lia.
  assert (map w32 values = values) as Hmap.
  { clear Hlen. induction Hall as [|x l Hx _ IH]; [done|]. simpl.
    rewrite IH. f_equal. unfold w32. apply Z.mod_small. lia. }
  eexists. split; [done|]. unfold size, param.
  rewrite Hlen, Nat.sub_diag, Hmap. simpl. rewrite app_nil_r. done.
Qed.

Lemma seed_round_trip_witness :
  ∃ _seed, create 3 [1; 2; 4294967295] = Some _seed ∧ size _seed = 3%nat ∧
           param _seed = [1; 2; 4294967295].
Proof.
  apply (seed_round_trip 3 [1; 2; 4294967295]); [reflexivity|].
  repeat constructor; lia.
Defined.

End SeedFacts.
